(** * Fourier shell correlation: a shallow embedding of
      [cryodrgn/commands_utils/fsc.py]

    The development follows the Python module function by function:
    [get_fftn_dists], [calculate_fsc], [get_fsc_thresholds], [correct_fsc],
    [calculate_cryosparc_fscs] and [main].

    Modelling conventions.
    - A Python [float] / numpy [float64] is a [float64]: either [NaN] or an
      exact rational.  Rounding, overflow and signed infinities are outside the
      model; comparisons, [==], NaN propagation and truncation by [int()] are
      the ones of the source.
    - A tensor is its leading dimension [shape0] and its voxels in row-major
      order.
    - Volumes are torch tensors, as [calculate_fsc] and [correct_fsc] declare
      them and as [main] loads them.  They are mutable objects: they live in a
      heap and are passed by location.  A mask is only read and is passed by
      value; it is a torch tensor or a numpy array, and the two behave
      differently under [vol *= mask]: a torch mask is multiplied into the
      caller's tensor, which the caller observes, whereas for a numpy mask
      [Tensor.__imul__] gives up, Python runs [vol = vol * mask] instead, and
      only the local name changes.
    - Raising is a result [Err e] together with the world reached so far.
    - Collaborators that are imported from other modules (the centred Fourier
      transform, numpy's complex arithmetic, [random.shuffle], the mask
      generators and the file loaders) are parameters of the sections. *)

From Stdlib Require Import ZArith QArith String List Lia Lqa Permutation.
From stdpp Require Import base option list gmap strings.

Local Open Scope string_scope.
Local Open Scope list_scope.
Local Open Scope Z_scope.

(** ** Floating-point values *)

Inductive float64 : Type :=
| NaN
| Fin (q : Q).

Definition f_of_Z (z : Z) : float64 := Fin (inject_Z z).

Definition f_zero : float64 := Fin 0%Q.
Definition f_one : float64 := Fin 1%Q.

Definition f_mul (a b : float64) : float64 :=
  match a, b with
  | Fin x, Fin y => Fin (x * y)%Q
  | _, _ => NaN
  end.

Definition f_sub (a b : float64) : float64 :=
  match a, b with
  | Fin x, Fin y => Fin (x - y)%Q
  | _, _ => NaN
  end.

(** numpy's [/]: a zero divisor does not raise; the quotient is then not a
    finite number and is represented by [NaN]. *)
Definition f_div (a b : float64) : float64 :=
  match a, b with
  | Fin x, Fin y => if Qeq_bool y 0 then NaN else Fin (x / y)%Q
  | _, _ => NaN
  end.

(** [a > b], [a >= b], [a == b], [a < b]: false as soon as one side is NaN. *)
Definition f_gt (a b : float64) : bool :=
  match a, b with
  | Fin x, Fin y => negb (Qle_bool x y)
  | _, _ => false
  end.

Definition f_ge (a b : float64) : bool :=
  match a, b with
  | Fin x, Fin y => Qle_bool y x
  | _, _ => false
  end.

Definition f_lt (a b : float64) : bool := f_gt b a.

Definition f_eq (a b : float64) : bool :=
  match a, b with
  | Fin x, Fin y => Qeq_bool x y
  | _, _ => false
  end.

Definition f_isnan (a : float64) : bool :=
  match a with
  | NaN => true
  | Fin _ => false
  end.

(** [np.clip(x, lo, hi)]: NaN goes through. *)
Definition f_clip (x lo hi : float64) : float64 :=
  if f_lt x lo then lo else if f_gt x hi then hi else x.

(** Truthiness of a float: [0.0] is false, everything else (NaN too) true. *)
Definition f_truthy (a : float64) : bool :=
  match a with
  | NaN => true
  | Fin x => negb (Qeq_bool x 0)
  end.

(** ** Exceptions and results *)

Inductive exn : Type :=
| ValueError (msg : string)
| TypeError (msg : string)
| AssertionError
| IndexError
| KeyError (key : string)
| ZeroDivisionError.

Inductive result (A : Type) : Type :=
| Ok (a : A)
| Err (e : exn).
Arguments Ok {A} a.
Arguments Err {A} e.

Definition rbind {A B} (m : result A) (k : A -> result B) : result B :=
  match m with
  | Ok a => k a
  | Err e => Err e
  end.

(** [int(x)] on a float: truncation towards zero; NaN raises. *)
Definition py_int (a : float64) : result Z :=
  match a with
  | NaN => Err (ValueError "cannot convert float NaN to integer")
  | Fin x => Ok (Z.quot (Qnum x) (Z.pos (Qden x)))
  end.

(** Python's [/] on two floats raises on a zero divisor. *)
Definition py_div (a b : float64) : result float64 :=
  if f_eq b f_zero then Err ZeroDivisionError else Ok (f_div a b).

(** ** Tensors and boolean masks *)

Record tensor (A : Type) : Type := Tensor { shape0 : Z; voxels : list A }.
Arguments Tensor {A} shape0 voxels.
Arguments shape0 {A} t.
Arguments voxels {A} t.

Global Instance tensor_inhabited {A} : Inhabited (tensor A) :=
  populate (Tensor 0 []).

(** [vol * mask], elementwise. *)
Definition tensor_mul (vol mask : tensor float64) : tensor float64 :=
  Tensor (shape0 vol) (zip_with f_mul (voxels vol) (voxels mask)).

(** A mask, by the library its array belongs to: a [torch.Tensor] or a
    [np.ndarray]. *)
Inductive mask_value : Type :=
| TorchMask (a : tensor float64)
| ArrayMask (a : tensor float64).

Definition mask_data (m : mask_value) : tensor float64 :=
  match m with
  | TorchMask a => a
  | ArrayMask a => a
  end.

(** [v[m]] for a boolean array [m]: the entries of [v] where [m] holds, in
    row-major order (also [v[np.where(m)]]). *)
Fixpoint select {A} (m : list bool) (v : list A) : list A :=
  match m, v with
  | b :: m', x :: v' => if b then x :: select m' v' else select m' v'
  | _, _ => []
  end.

(** [v[m] = vals]: the entries of [v] where [m] holds are replaced, in order,
    by the entries of [vals]. *)
Fixpoint scatter {A} (m : list bool) (v vals : list A) : list A :=
  match m, v with
  | b :: m', x :: v' =>
      if b then
        match vals with
        | y :: vals' => y :: scatter m' v' vals'
        | [] => x :: scatter m' v' []
        end
      else x :: scatter m' v' vals
  | _, _ => v
  end.

(** [m.sum()] for a boolean array. *)
Definition count_true (m : list bool) : nat := length (filter (λ b, b = true) m).

(** [np.arange(lo, hi)] and [range(lo, hi)]. *)
Definition arange (lo hi : Z) : list Z :=
  (λ k, lo + Z.of_nat k) <$> seq 0 (Z.to_nat (hi - lo)).

(** ** The shell distance grid *)

(** Python index normalisation along an axis of size [n]. *)
Definition norm_index (n : nat) (i : Z) : option nat :=
  if decide (0 <= i < Z.of_nat n) then Some (Z.to_nat i)
  else if decide (- Z.of_nat n <= i < 0) then Some (Z.to_nat (i + Z.of_nat n))
  else None.

(** [a[i, j, k]] for an [n × n × n] array stored row-major. *)
Definition index3 {A} (n : nat) (a : list A) (i j k : Z) : option A :=
  i' ← norm_index n i; j' ← norm_index n j; k' ← norm_index n k;
  a !! ((i' * n + j') * n + k')%nat.

(** A distance [sqrt s] is represented by the integer [s] under the root; the
    three comparisons the source makes on distances are then exact. *)
Definition dist_lt (s i : Z) : bool := (0 <? i) && (s <? i ^ 2).
Definition dist_gt (s i : Z) : bool := (i <? 0) || (i ^ 2 <? s).
Definition dist_is_zero (s : Z) : bool := s =? 0.

(** [get_fftn_dists]: [x2, x1, x0 = meshgrid(x, x, x)] makes [x2] vary along
    axis 0 and [x0] along axis 2; the entry at [a, b, c] is
    [(x[c]^2 + x[b]^2 + x[a]^2) ** 0.5]. *)
Definition get_fftn_dists (resolution : Z) : result (list Z) :=
  let x := arange (Z.opp resolution / 2) (resolution / 2) in
  let dists := x2 ← x; x1 ← x; x0 ← x; [x0 ^ 2 + x1 ^ 2 + x2 ^ 2] in
  let n := length x in
  match index3 n dists (resolution / 2) (resolution / 2) (resolution / 2) with
  | None => Err IndexError
  | Some d => if dist_is_zero d then Ok dists else Err AssertionError
  end.

(** ** FSC curves *)

(** A [pd.DataFrame] with the two columns [pixres] and [fsc], row by row. *)
Definition DataFrame : Type := list (float64 * float64).

Definition df_pixres (df : DataFrame) : list float64 := fst <$> df.
Definition df_fsc (df : DataFrame) : list float64 := snd <$> df.

(** [pd.DataFrame(dict(pixres=..., fsc=...), dtype=float)]: columns of
    different lengths are refused. *)
Definition mk_DataFrame (pixres fsc : list float64) : result DataFrame :=
  if decide (length pixres = length fsc) then Ok (zip pixres fsc)
  else Err (ValueError "All arrays must be of the same length").

(** [np.arange(D // 2) / D] *)
Definition pixres_axis (D : Z) : list float64 :=
  (λ i, f_div (f_of_Z i) (f_of_Z D)) <$> arange 0 (D / 2).

(** [xs.max()] of a pandas Series: NaN entries are skipped; an empty or
    all-NaN series gives NaN. *)
Definition series_max_step (acc x : float64) : float64 :=
  if f_isnan x then acc
  else if f_isnan acc then x
  else if f_lt acc x then x else acc.

Definition series_max (xs : list float64) : float64 :=
  foldl series_max_step NaN xs.

(** ** Resolution thresholds *)

(** The pattern applied to both cutoffs in [get_fsc_thresholds]:
    [if ((pixres > 0) & (fsc >= cutoff)).any(): pixres[fsc >= cutoff].max()
     else: None]. *)
Definition threshold_at (cutoff : float64) (fsc_vals : DataFrame) : option float64 :=
  let pixres := df_pixres fsc_vals in
  let fsc := df_fsc fsc_vals in
  if existsb id (zip_with andb ((λ x, f_gt x f_zero) <$> pixres)
                               ((λ y, f_ge y cutoff) <$> fsc))
  then Some (series_max (select ((λ y, f_ge y cutoff) <$> fsc) pixres))
  else None.

Definition cutoff_05 : float64 := Fin (1 # 2).
Definition cutoff_143 : float64 := Fin (143 # 1000).

(** [get_fsc_thresholds]; the messages it logs are not part of the model, so
    [apix] and [verbose] do not influence the result. *)
Definition get_fsc_thresholds (fsc_vals : DataFrame) (apix : float64)
    (verbose : bool) : option float64 * option float64 :=
  let res_05 := threshold_at cutoff_05 fsc_vals in
  let res_143 := threshold_at cutoff_143 fsc_vals in
  (res_05, res_143).

(** ** Collaborators *)

(** What [volume.images()] and [volume.apix] give for a loaded file: the
    location of the tensor and the pixel size found in the header, if any. *)
Record ImageSource : Type := { images : nat; apix : option float64 }.

(** The functions [fsc.py] imports from other modules.  [C] is the type of
    complex coefficients and [G] the state of Python's global random source. *)
Class Collaborators (C G : Type) : Type := {
  (** [fft.fftn_center], given the side and the voxels *)
  fft_voxels : Z → list float64 → list C;
  (** [np.vdot], complex [*], [/], [** 0.5], and [float(p.real)] *)
  vdot : list C → list C → C;
  c_mul : C → C → C;
  c_div : C → C → C;
  c_sqrt : C → C;
  c_real : C → float64;
  (** [random.shuffle]: the shuffled list and the next state of the source *)
  random_shuffle : list nat → G → list nat * G;
  (** [masking.spherical_window_mask(D=...)] *)
  spherical_window_mask : Z → mask_value;
  (** [masking.cosine_dilation_mask(vol, dilation=, edge_dist=, apix=)] *)
  cosine_dilation_mask : tensor float64 → Z → Z → float64 → mask_value;
  (** [ImageSource.from_file] and [parse_mrc(...)[0]] *)
  ImageSource_from_file : string → ImageSource;
  parse_mrc : string → mask_value;
  (** [os.path.splitext(...)[0]] *)
  splitext_root : string → string
}.

(** ** Worlds and computations *)

Section Monad.
Context {G : Type}.

(** The world a call runs in: the tensors reachable from the caller, by
    location, and the random source. *)
Record world : Type := World { heap : gmap nat (tensor float64); rng : G }.

(** A computation ends with a value or an exception, and a world. *)
Definition M (A : Type) : Type := world → result A * world.

Definition ret {A} (a : A) : M A := λ w, (Ok a, w).
Definition raise {A} (e : exn) : M A := λ w, (Err e, w).
Definition lift {A} (r : result A) : M A := λ w, (r, w).
Definition bind {A B} (m : M A) (k : A → M B) : M B :=
  λ w, match m w with
       | (Ok a, w') => k a w'
       | (Err e, w') => (Err e, w')
       end.

(** Reading the tensor at a location.  Callers only hold locations of live
    tensors; a location outside the heap would read as the empty tensor. *)
Definition read (l : nat) : M (tensor float64) :=
  λ w, (Ok (heap w !!! l), w).

(** What a local name stands for: the caller's tensor at a location, or a
    tensor of the call's own. *)
Inductive local : Type :=
| Shared (l : nat)
| Own (t : tensor float64).

(** The tensor a local name stands for, when it is used. *)
Definition deref (x : local) : M (tensor float64) :=
  match x with
  | Shared l => read l
  | Own t => ret t
  end.

(** [vol *= mask], for the torch tensor at [vol]; the result is what the name
    [vol] stands for afterwards.  With a torch mask the tensor is overwritten
    in place and the name keeps standing for it.  With a numpy mask the
    in-place product is not implemented, the statement runs as
    [vol = vol * mask], and the name stands for the new product: the caller's
    tensor is left as it was. *)
Definition imul (vol : nat) (m : mask_value) : M local :=
  λ w, match m with
       | TorchMask a =>
           (Ok (Shared vol),
            World (<[vol := tensor_mul (heap w !!! vol) a]> (heap w)) (rng w))
       | ArrayMask a => (Ok (Own (tensor_mul (heap w !!! vol) a)), w)
       end.

(** [if initial_mask is not None: vol *= initial_mask] *)
Definition imul_opt (vol : nat) (initial_mask : option mask_value) : M local :=
  match initial_mask with
  | Some m => imul vol m
  | None => ret (Shared vol)
  end.

End Monad.

Arguments world G : clear implicits.
Arguments M G A : clear implicits.

Notation "x ←ᴹ m ; k" := (bind m (λ x, k))
  (at level 20, m at level 100, k at level 200, only parsing, right associativity).
Notation "m ;ᴹ k" := (bind m (λ _, k))
  (at level 100, k at level 200, only parsing, right associativity).

(** ** The numeric core *)

Section Fsc.
Context {C G : Type} `{!Collaborators C G}.

Definition shuffle (l : list nat) : M G (list nat) :=
  λ w, let '(l', g') := random_shuffle l (rng w) in (Ok l', World (heap w) g').

Definition fftn_center (t : tensor float64) : tensor C :=
  Tensor (shape0 t) (fft_voxels (shape0 t) (voxels t)).

(** [float((np.vdot(v1, v2) / (np.vdot(v1, v1) * np.vdot(v2, v2)) ** 0.5).real)] *)
Definition shell_corr (v1 v2 : list C) : float64 :=
  c_real (c_div (vdot v1 v2) (c_sqrt (c_mul (vdot v1 v1) (vdot v2 v2)))).

(** [dists < i] *)
Definition lt_mask (dists : list Z) (i : Z) : list bool :=
  (λ d, dist_lt d i) <$> dists.

(** [mask & np.logical_not(prev_mask)] *)
Definition shell_of (mask prev_mask : list bool) : list bool :=
  zip_with andb mask (negb <$> prev_mask).

(** One turn of the loop of [calculate_fsc]. *)
Definition fsc_step (dists : list Z) (vol1 vol2 : list C)
    (st : list bool * list float64) (i : Z) : list bool * list float64 :=
  let '(prev_mask, fsc) := st in
  let mask := lt_mask dists i in
  let shell := shell_of mask prev_mask in
  let v1 := select shell vol1 in
  let v2 := select shell vol2 in
  (mask, fsc ++ [shell_corr v1 v2]).

Definition calculate_fsc (vol1 vol2 : nat)
    (initial_mask : option mask_value) (out_file : option string)
    : M G DataFrame :=
  vol1 ←ᴹ imul_opt vol1 initial_mask ;
  vol2 ←ᴹ imul_opt vol2 initial_mask ;
  t1 ←ᴹ deref vol1 ;
  let D := shape0 t1 in
  dists ←ᴹ lift (get_fftn_dists D) ;
  t2 ←ᴹ deref vol2 ;
  let vol1 := voxels (fftn_center t1) in
  let vol2 := voxels (fftn_center t2) in
  let prev_mask := replicate (Z.to_nat (D * D * D)) false in
  let fsc := snd (foldl (fsc_step dists vol1 vol2) (prev_mask, [f_one])
                        (arange 1 (D / 2))) in
  (* [out_file]: the table is also written to that path; files are not
     part of the world. *)
  lift (mk_DataFrame (pixres_axis D) fsc).

(** *** Phase-randomization correction *)

(** [l[inds]] for a list of indices. *)
Definition gather {A} (l : list A) (inds : list nat) : result (list A) :=
  match mapM (λ j, l !! j) inds with
  | Some r => Ok r
  | None => Err IndexError
  end.

(** [v[m] = v[m][inds]] *)
Definition permute_region (m : list bool) (v : list C) (inds : list nat)
    : result (list C) :=
  rbind (gather (select m v) inds) (λ vals, Ok (scatter m v vals)).

(** [l[i] = x] on a Python list, for [i >= 0]: an index past the end raises. *)
Definition list_assign {A} (l : list A) (i : Z) (x : A) : result (list A) :=
  if decide (Z.to_nat i < length l)%nat then Ok (<[Z.to_nat i := x]> l)
  else Err IndexError.

(** The update of [fsc[i]] from the phase-randomized correlation [p]. *)
Definition correct_shell (fsc : list float64) (i : Z) (p : float64)
    : result (list float64) :=
  if f_eq p f_one then list_assign fsc i f_zero
  else if negb (f_isnan p) then
    match fsc !! Z.to_nat i with
    | None => Err IndexError
    | Some fsc_i =>
        rbind (py_div (f_sub fsc_i p) (f_sub f_one p))
              (λ q, list_assign fsc i (f_clip q f_zero f_one))
    end
  else Ok fsc.

(** One turn of the loop of [correct_fsc]. *)
Definition correct_step (dists : list Z) (phase_D : Z) (vol1 vol2 : list C)
    (st : list bool * list float64) (i : Z)
    : result (list bool * list float64) :=
  let '(prev_mask, fsc) := st in
  let mask := lt_mask dists i in
  let shell := shell_of mask prev_mask in
  rbind (if phase_D <? i
         then correct_shell fsc i (shell_corr (select shell vol1) (select shell vol2))
         else Ok fsc)
        (λ fsc', Ok (mask, fsc')).

(** A [for] loop whose body may raise. *)
Fixpoint for_each {S I} (body : S → I → result S) (st : S) (l : list I)
    : result S :=
  match l with
  | [] => Ok st
  | i :: l' => rbind (body st i) (λ st', for_each body st' l')
  end.

(** Lines 196-203: the coefficients beyond [phase_D] are shuffled, in each
    volume with its own shuffle of the same index list. *)
Definition phase_randomize (dists : list Z) (phase_D : Z) (vol1 vol2 : list C)
    : M G (list C * list C) :=
  let phase_mask := (λ d, dist_gt d phase_D) <$> dists in
  let phase_inds := seq 0 (count_true phase_mask) in
  phase_inds ←ᴹ shuffle phase_inds ;
  vol1 ←ᴹ lift (permute_region phase_mask vol1 phase_inds) ;
  phase_inds ←ᴹ shuffle phase_inds ;
  vol2 ←ᴹ lift (permute_region phase_mask vol2 phase_inds) ;
  ret (vol1, vol2).

Definition fsc_length_error : exn :=
  ValueError "Given FSC values must have (D // 2) + 1 entries".

Definition correct_fsc (fsc_vals : DataFrame) (vol1 vol2 : nat)
    (randomization_threshold : float64)
    (initial_mask : option mask_value) : M G DataFrame :=
  vol1 ←ᴹ imul_opt vol1 initial_mask ;
  vol2 ←ᴹ imul_opt vol2 initial_mask ;
  t1 ←ᴹ deref vol1 ;
  let D := shape0 t1 in
  if decide (Z.of_nat (length fsc_vals) ≠ D / 2) then raise fsc_length_error
  else
    dists ←ᴹ lift (get_fftn_dists D) ;
    t2 ←ᴹ deref vol2 ;
    let vol1 := fftn_center t1 in
    let vol2 := fftn_center t2 in
    phase_D ←ᴹ lift (py_int (f_mul randomization_threshold (f_of_Z (shape0 vol1)))) ;
    vols ←ᴹ phase_randomize dists phase_D (voxels vol1) (voxels vol2) ;
    let prev_mask := replicate (Z.to_nat (D * D * D)) false in
    let fsc := df_fsc fsc_vals in
    st ←ᴹ lift (for_each (correct_step dists phase_D vols.1 vols.2)
                         (prev_mask, fsc) (arange 1 (D / 2))) ;
    lift (mk_DataFrame (pixres_axis D) (snd st)).

(** *** The multi-mask pipeline *)

(** A [dict] with string keys, in insertion order. *)
Fixpoint dict_get {V} (d : list (string * V)) (k : string) : result V :=
  match d with
  | [] => Err (KeyError k)
  | (k', v) :: d' => if String.eqb k' k then Ok v else dict_get d' k
  end.

Fixpoint dict_set {V} (d : list (string * V)) (k : string) (v : V)
    : list (string * V) :=
  match d with
  | [] => [(k, v)]
  | (k', v') :: d' =>
      if String.eqb k' k then (k', v) :: d' else (k', v') :: dict_set d' k v
  end.

(** The dynamic type of the [tight_mask] argument: a tuple
    [(dilation, edge_dist)], an array of either library, or anything else (its
    type name). *)
Inductive tight_mask_arg : Type :=
| TightTuple (dilation edge_dist : Z)
| TightArray (m : mask_value)
| TightOther (type_name : string).

(** The table returned by [calculate_cryosparc_fscs]: one column of
    correlations per label, indexed by pixel resolution. *)
Record FscTable : Type :=
  { tbl_index : list float64; tbl_columns : list (string * list float64) }.

(** A dict comprehension whose values come from calls that change the world:
    the calls run in the order of the items. *)
Fixpoint for_items {A B} (f : A → M G B) (l : list (string * A))
    : M G (list (string * B)) :=
  match l with
  | [] => ret []
  | (lbl, a) :: l' =>
      b ←ᴹ f a ;
      r ←ᴹ for_items f l' ;
      ret ((lbl, b) :: r)
  end.

(** Lines 241-261: the masks, by label. *)
Definition cryosparc_masks (full_vol : nat) (sphere_mask : option mask_value)
    (loose_mask : Z * Z) (tight_mask : tight_mask_arg) (Apix : float64)
    : M G (list (string * option mask_value)) :=
  fv ←ᴹ read full_vol ;
  let sphere_mask :=
    match sphere_mask with
    | None => spherical_window_mask (shape0 fv)
    | Some m => m
    end in
  let masks :=
    [ ("No Mask", None);
      ("Spherical", Some sphere_mask);
      ("Loose", Some (cosine_dilation_mask fv loose_mask.1 loose_mask.2 Apix)) ] in
  match tight_mask with
  | TightTuple dilation edge_dist =>
      ret (dict_set masks "Tight"
             (Some (cosine_dilation_mask fv dilation edge_dist Apix)))
  | TightArray m => ret (dict_set masks "Tight" (Some m))
  | TightOther _ =>
      raise (TypeError "`tight_mask` must be an array or a tuple giving dilation and cosine edge size in pixels")
  end.

Definition f_075 : float64 := Fin (3 # 4).

(** Lines 263-285: the curve and the 0.143 threshold of every label, then the
    entry [Corrected] of both dicts. *)
Definition cryosparc_curves (half_vol1 half_vol2 : nat)
    (masks : list (string * option mask_value)) (Apix : float64)
    : M G (list (string * DataFrame) * list (string * option float64)) :=
  fsc_vals ←ᴹ for_items (λ mask, calculate_fsc half_vol1 half_vol2 mask None) masks ;
  let fsc_thresh :=
    (λ '(mask_lbl, fsc_df), (mask_lbl, (get_fsc_thresholds fsc_df Apix false).2))
      <$> fsc_vals in
  tight_thresh ←ᴹ lift (dict_get fsc_thresh "Tight") ;
  tight_vals ←ᴹ lift (dict_get fsc_vals "Tight") ;
  match tight_thresh with
  | Some thr =>
      tight ←ᴹ lift (dict_get masks "Tight") ;
      corrected ←ᴹ correct_fsc tight_vals half_vol1 half_vol2 (f_mul f_075 thr) tight ;
      ret (dict_set fsc_vals "Corrected" corrected,
           dict_set fsc_thresh "Corrected"
                    (get_fsc_thresholds corrected Apix false).2)
  | None =>
      ret (dict_set fsc_vals "Corrected" tight_vals,
           dict_set fsc_thresh "Corrected" tight_thresh)
  end.

(** [(1 / fsc_val) * Apix] for every threshold: dividing by [None] raises. *)
Fixpoint fsc_angs (Apix : float64) (fsc_thresh : list (string * option float64))
    : result (list (string * float64)) :=
  match fsc_thresh with
  | [] => Ok []
  | (mask_lbl, None) :: _ =>
      Err (TypeError "unsupported operand type(s) for /: 'int' and 'NoneType'")
  | (mask_lbl, Some fsc_val) :: rest =>
      rbind (fsc_angs Apix rest)
            (λ r, Ok ((mask_lbl, f_mul (f_div f_one fsc_val) Apix) :: r))
  end.

(** Equality of two tuples of floats. *)
Fixpoint tuple_eq (a b : list float64) : bool :=
  match a, b with
  | [], [] => true
  | x :: a', y :: b' => f_eq x y && tuple_eq a' b'
  | _, _ => false
  end.

(** [{tuple(vals.pixres.values) for vals in fsc_vals.values()}], as the list
    of its distinct members in order of first appearance. *)
Definition pixres_set (fsc_vals : list (string * DataFrame)) : list (list float64) :=
  foldl (λ acc t, if existsb (tuple_eq t) acc then acc else acc ++ [t])
        [] ((λ kv, df_pixres kv.2) <$> fsc_vals).

Definition calculate_cryosparc_fscs (full_vol half_vol1 half_vol2 : nat)
    (sphere_mask : option mask_value) (loose_mask : Z * Z)
    (tight_mask : tight_mask_arg) (Apix : float64)
    (out_file plot_file : option string) : M G FscTable :=
  masks ←ᴹ cryosparc_masks full_vol sphere_mask loose_mask tight_mask Apix ;
  curves ←ᴹ cryosparc_curves half_vol1 half_vol2 masks Apix ;
  let '(fsc_vals, fsc_thresh) := curves in
  (* the thresholds of the corrected curve are logged here *)
  match plot_file with
  | Some _ => lift (fsc_angs Apix fsc_thresh) ;ᴹ ret ()
  | None => ret ()
  end ;ᴹ
  match pixres_set fsc_vals with
  | [pixres_index] =>
      ret {| tbl_index := pixres_index;
             tbl_columns := (λ kv, (kv.1, df_fsc kv.2)) <$> fsc_vals |}
  | _ => raise AssertionError
  end.

(** *** The command line *)

Inductive plot_arg : Type :=
| PlotTrue
| PlotPath (p : string).

(** The [argparse.Namespace] built from [add_args]. *)
Record Namespace : Type := {
  args_volumes : list string;
  args_mask : option string;
  args_corrected : option float64;
  args_plot : option plot_arg;
  args_Apix : option float64;
  args_outtxt : option string
}.

(** Values that reach a call of [calculate_fsc]. *)
Inductive pyval : Type :=
| VNone
| VTensor (l : nat)
| VArray (m : mask_value)
| VFloat (x : float64)
| VStr (s : string).

(** How Python binds the positional arguments [pos] and the keyword
    arguments [kw] of a call to the parameters [params] (name and default, if any) of [f]: positional
    arguments first, then keywords, then defaults. *)
Fixpoint bind_keywords (names : list string) (bound : list (string * pyval))
    (kw : list (string * pyval)) : result (list (string * pyval)) :=
  match kw with
  | [] => Ok bound
  | (k, v) :: kw' =>
      if negb (existsb (String.eqb k) names) then
        Err (TypeError ("got an unexpected keyword argument '" ++ k ++ "'"))
      else if existsb (λ b, String.eqb k b.1) bound then
        Err (TypeError ("got multiple values for argument '" ++ k ++ "'"))
      else bind_keywords names (bound ++ [(k, v)]) kw'
  end.

Fixpoint fill_defaults (params : list (string * option pyval))
    (bound : list (string * pyval)) : result (list pyval) :=
  match params with
  | [] => Ok []
  | (name, default) :: params' =>
      rbind (match dict_get bound name, default with
             | Ok v, _ => Ok v
             | Err _, Some v => Ok v
             | Err _, None =>
                 Err (TypeError ("missing required positional argument: '" ++ name ++ "'"))
             end)
            (λ v, rbind (fill_defaults params' bound) (λ vs, Ok (v :: vs)))
  end.

Definition bind_args (params : list (string * option pyval))
    (pos : list pyval) (kw : list (string * pyval)) : result (list pyval) :=
  if decide (length params < length pos)%nat then
    Err (TypeError "too many positional arguments")
  else
    rbind (bind_keywords params.*1 (zip params.*1 pos) kw)
          (fill_defaults params).

(** The signature of [calculate_fsc]. *)
Definition calculate_fsc_params : list (string * option pyval) :=
  [ ("vol1", None); ("vol2", None);
    ("initial_mask", Some VNone); ("out_file", Some VNone) ].

(** A call of [calculate_fsc] with the arguments as written at the call site. *)
Definition call_calculate_fsc (pos : list pyval) (kw : list (string * pyval))
    : M G DataFrame :=
  bound ←ᴹ lift (bind_args calculate_fsc_params pos kw) ;
  match bound with
  | [VTensor vol1; VTensor vol2; initial_mask; out_file] =>
      match initial_mask, out_file with
      | VNone, VNone => calculate_fsc vol1 vol2 None None
      | VNone, VStr o => calculate_fsc vol1 vol2 None (Some o)
      | VArray m, VNone => calculate_fsc vol1 vol2 (Some m) None
      | VArray m, VStr o => calculate_fsc vol1 vol2 (Some m) (Some o)
      | _, _ => raise (TypeError "unsupported argument type")
      end
  | _ => raise (TypeError "unsupported argument type")
  end.

Definition of_option {A} (inj : A → pyval) (o : option A) : pyval :=
  match o with
  | Some a => inj a
  | None => VNone
  end.

(** Truthiness of an optional string: [None] and the empty string are false. *)
Definition str_truthy (o : option string) : bool :=
  match o with
  | Some s => negb (String.eqb s "")
  | None => false
  end.

(** A set of floats, as the list of its distinct members. *)
Definition float_set (l : list float64) : list float64 :=
  foldl (λ acc x, if existsb (f_eq x) acc then acc else acc ++ [x]) [] l.

Definition apix_differ_error : exn :=
  ValueError "These volumes have different A/px values".

Definition corrected_conflict_error : exn :=
  ValueError "Cannot provide your own phase randomization threshold as this will be computed for you when providing three volumes {fullvol, halfvol1, halfvol2}!".

Definition volume_count_error : exn :=
  ValueError "Must provide two or three volume files".

(** Lines 325-335: the pixel size. *)
Definition main_apix (args : Namespace) (volumes : list ImageSource)
    : result float64 :=
  let from_volumes :=
    let vol_apixs := float_set (omap apix volumes) in
    match vol_apixs with
    | [] => Ok f_one
    | [a] => Ok a
    | _ => Err apix_differ_error
    end in
  match args_Apix args with
  | Some a => if f_truthy a then Ok a else from_volumes
  | None => from_volumes
  end.

(** Lines 337-346: the plot file. *)
Definition main_plot_file (args : Namespace) : option string :=
  match args_plot args with
  | Some PlotTrue =>
      if str_truthy (args_outtxt args)
      then Some (splitext_root (default "" (args_outtxt args)) ++ ".png")%string
      else Some "fsc-plot.png"
  | Some (PlotPath p) => if str_truthy (Some p) then Some p else None
  | None => None
  end.

(** What a run of [main] shows or saves. *)
Inductive main_report : Type :=
| ReportCurve (fsc_vals : DataFrame) (thresholds : option float64 * option float64)
| ReportTable (fsc_vals : FscTable).

(** Lines 353-355: a [--corrected] value of at least 1 is a resolution in
    angstroms and becomes [(corrected / apix) ** -1]. *)
Definition main_corrected (corrected : option float64) (apix_ : float64)
    : result (option float64) :=
  match corrected with
  | Some c =>
      if f_ge c f_one
      then rbind (py_div c apix_) (λ q, rbind (py_div f_one q) (λ r, Ok (Some r)))
      else Ok (Some c)
  | None => Ok None
  end.

(** Lines 348-370: two volumes. *)
Definition main_two (args : Namespace) (volumes : list ImageSource)
    (mask : option mask_value) (apix_ : float64) : M G main_report :=
  corrected ←ᴹ lift (main_corrected (args_corrected args) apix_) ;
  v0 ←ᴹ lift (match volumes !! 0%nat with Some v => Ok v | None => Err IndexError end) ;
  v1 ←ᴹ lift (match volumes !! 1%nat with Some v => Ok v | None => Err IndexError end) ;
  fsc_vals ←ᴹ call_calculate_fsc
    [VTensor (images v0); VTensor (images v1); of_option VArray mask;
     of_option VFloat corrected]
    [("out_file", of_option VStr (args_outtxt args))] ;
  ret (ReportCurve fsc_vals (get_fsc_thresholds fsc_vals apix_ true)).

(** Lines 372-397: three volumes. *)
Definition main_three (args : Namespace) (volumes : list ImageSource)
    (mask : option mask_value) (apix_ : float64)
    (plot_file : option string) : M G main_report :=
  match args_corrected args with
  | Some _ => raise corrected_conflict_error
  | None =>
      let mask :=
        match mask with
        | None => TightTuple 6 6
        | Some m => TightArray m
        end in
      v0 ←ᴹ lift (match volumes !! 0%nat with Some v => Ok v | None => Err IndexError end) ;
      v1 ←ᴹ lift (match volumes !! 1%nat with Some v => Ok v | None => Err IndexError end) ;
      v2 ←ᴹ lift (match volumes !! 2%nat with Some v => Ok v | None => Err IndexError end) ;
      fsc_vals ←ᴹ calculate_cryosparc_fscs (images v0) (images v1) (images v2)
        None (25, 15) mask apix_ (args_outtxt args) plot_file ;
      ret (ReportTable fsc_vals)
  end.

Definition main (args : Namespace) : M G main_report :=
  let n := length (args_volumes args) in
  if negb ((n =? 2)%nat || (n =? 3)%nat) then
    raise volume_count_error
  else
    let volumes := ImageSource_from_file <$> args_volumes args in
    let mask := parse_mrc <$> args_mask args in
    apix_ ←ᴹ lift (main_apix args volumes) ;
    let plot_file := main_plot_file args in
    if (n =? 2)%nat then main_two args volumes mask apix_
    else main_three args volumes mask apix_ plot_file.

End Fsc.

(** ** Specification-side vocabulary *)

(** An entry of a curve meets a cutoff when it is not the DC entry (its pixel
    resolution is positive) and its correlation is at least the cutoff. *)
Definition meets (cutoff : float64) (r : float64 * float64) : Prop :=
  f_gt r.1 f_zero = true ∧ f_ge r.2 cutoff = true.

(** [res] is the resolution threshold of [fsc_vals] at [cutoff]: undefined
    when no entry meets the cutoff, and otherwise the largest pixel resolution
    among the entries that meet it. *)
Definition is_threshold (cutoff : float64) (fsc_vals : DataFrame)
    (res : option float64) : Prop :=
  match res with
  | None => ∀ r, r ∈ fsc_vals → ¬ meets cutoff r
  | Some thr =>
      (∃ r, r ∈ fsc_vals ∧ meets cutoff r ∧ r.1 = thr) ∧
      (∀ r, r ∈ fsc_vals → meets cutoff r → f_ge thr r.1 = true)
  end.

(** The index triples [(a, b, c)] of a [D × D × D] array, in row-major order. *)
Definition voxel_indices (D : Z) : list (Z * Z * Z) :=
  a ← arange 0 D; b ← arange 0 D; c ← arange 0 D; [(a, b, c)].

(** The squared distance of the voxel at [idx] from the centre index
    [(D/2, D/2, D/2)]. *)
Definition center_dist2 (D : Z) (idx : Z * Z * Z) : Z :=
  let '(a, b, c) := idx in (c - D / 2) ^ 2 + (b - D / 2) ^ 2 + (a - D / 2) ^ 2.

(** Fourier shell [i]: the voxels whose distance [d] from the centre satisfies
    [d < i] and not [d < i - 1]. *)
Definition in_ring (D i : Z) (idx : Z * Z * Z) : bool :=
  dist_lt (center_dist2 D idx) i && negb (dist_lt (center_dist2 D idx) (i - 1)).

(** The coefficients of a transformed volume on Fourier shell [i]. *)
Definition ring_coeffs {C} (D i : Z) (v : list C) : list C :=
  select (in_ring D i <$> voxel_indices D) v.

(** The world once both volumes have been multiplied by the mask, if one is
    given (lines 115-117 of [calculate_fsc], 182-184 of [correct_fsc]): the
    caller's tensors are overwritten by a torch mask and left alone by a numpy
    mask. *)
Definition premasked {G} (vol1 vol2 : nat)
    (initial_mask : option mask_value) (w : world G) : world G :=
  (imul_opt vol2 initial_mask (imul_opt vol1 initial_mask w).2).2.

(** What the name of a volume stands for after [vol *= initial_mask], run in
    the world [w]. *)
Definition rebound {G} (vol : nat) (initial_mask : option mask_value)
    (w : world G) : local :=
  match initial_mask with
  | Some (ArrayMask a) => Own (tensor_mul (heap w !!! vol) a)
  | _ => Shared vol
  end.

(** The two tensors the names [vol1] and [vol2] stand for after these lines:
    the caller's tensors as they then are, or, with a numpy mask, the two new
    products. *)
Definition masked {G} (vol1 vol2 : nat)
    (initial_mask : option mask_value) (w : world G)
    : tensor float64 * tensor float64 :=
  match initial_mask with
  | Some (ArrayMask a) =>
      (tensor_mul (heap w !!! vol1) a, tensor_mul (heap w !!! vol2) a)
  | _ =>
      let wm := premasked vol1 vol2 initial_mask w in
      (heap wm !!! vol1, heap wm !!! vol2)
  end.

(** The correlations a curve holds after entry 0, shell by shell, for two
    transformed volumes of side [D]. *)
Definition shell_values `{!Collaborators C G} (D : Z) (v1 v2 : list C)
    : list float64 :=
  (λ i, shell_corr (ring_coeffs D i v1) (ring_coeffs D i v2)) <$> arange 1 (D / 2).

(** The corrected value of a shell from its raw value and the correlation
    [p_random] of the phase-randomized volumes:
    [clip((fsc_raw - p_random) / (1 - p_random), 0, 1)], except that
    [p_random == 1.0] gives 0.0 and a NaN [p_random] keeps the raw value. *)
Definition corrected_value (fsc_raw p_random : float64) : float64 :=
  if f_eq p_random f_one then f_zero
  else if f_isnan p_random then fsc_raw
  else f_clip (f_div (f_sub fsc_raw p_random) (f_sub f_one p_random)) f_zero f_one.

(** Entry [i] of the corrected curve, from entry [i] of the given curve and
    the phase-randomized coefficients [s1], [s2]: shells up to [phase_D] (and
    the DC entry) keep their value, the others are corrected. *)
Definition corrected_entry `{!Collaborators C G} (D phase_D : Z)
    (s1 s2 : list C) (i : Z) (fsc_raw : float64) : float64 :=
  if decide (i <= phase_D ∨ i = 0) then fsc_raw
  else corrected_value fsc_raw
         (shell_corr (ring_coeffs D i s1) (ring_coeffs D i s2)).

(** The positions at which a boolean array holds, counted from [n]. *)
Fixpoint true_positions (n : nat) (m : list bool) : list nat :=
  match m with
  | [] => []
  | b :: m' =>
      if b then n :: true_positions (S n) m' else true_positions (S n) m'
  end.

(** The row-major positions of the voxels of a [D × D × D] array whose centre
    distance exceeds [phase_D], in increasing order: the region that the
    phase randomization rearranges. *)
Definition beyond (D phase_D : Z) : list nat :=
  omap (λ p : nat * (Z * Z * Z),
          if dist_gt (center_dist2 D p.2) phase_D then Some p.1 else None)
       (zip (seq 0 (length (voxel_indices D))) (voxel_indices D)).

(** [s] is [v] after [v[region] = v[region][inds]]: outside the region
    nothing moves, and the [j]-th position of the region receives what [v]
    holds at the [inds[j]]-th position of the region. *)
Definition shuffled_by {A} (region inds : list nat) (v s : list A) : Prop :=
  length s = length v ∧
  (∀ k, k ∉ region → s !! k = v !! k) ∧
  (∀ j k, region !! j = Some k →
     ∃ j' k', inds !! j = Some j' ∧ region !! j' = Some k' ∧ s !! k = v !! k').

(** A tensor is cubic of side [D]. *)
Definition cubic {A} (D : Z) (t : tensor A) : Prop :=
  shape0 t = D ∧ length (voxels t) = Z.to_nat (D * D * D).

(** What the proofs need from the transform and from the shuffle: the
    transform keeps the number of voxels, and a shuffle is a permutation. *)
Class CollaboratorsOk `(E : Collaborators C G) : Prop := {
  fft_voxels_length : ∀ D v, length (fft_voxels D v) = length v;
  random_shuffle_perm : ∀ l g, (random_shuffle l g).1 ≡ₚ l
}.

(** ** A small concrete setting *)

(** Collaborators to run the model on concrete inputs: coefficients are
    rationals, the transform keeps the voxels in place, [x ** 0.5] takes the
    integer roots of numerator and denominator, the shuffle reverses, the
    generated masks are constant (the spherical one a torch tensor, the
    dilated ones and the parsed one numpy arrays), and three files are known
    to the loaders. *)
Definition toy_coeff (x : float64) : Q :=
  match x with
  | Fin q => q
  | NaN => 0%Q
  end.

Definition toy_vdot (a b : list Q) : Q := foldr Qplus 0%Q (zip_with Qmult a b).

Definition toy_source (path : string) : ImageSource :=
  if String.eqb path "full.mrc" then {| images := 0%nat; apix := Some f_one |}
  else if String.eqb path "half1.mrc" then {| images := 1%nat; apix := Some f_one |}
  else if String.eqb path "half2.mrc" then {| images := 2%nat; apix := None |}
  else {| images := 3%nat; apix := Some (Fin (3 # 2)) |}.

#[global] Instance toy : Collaborators Q unit := {|
  fft_voxels := λ _ v, toy_coeff <$> v;
  vdot := toy_vdot;
  c_mul := Qmult;
  c_div := Qdiv;
  c_sqrt := λ x, (Z.sqrt (Qnum x) # Pos.sqrt (Qden x));
  c_real := Fin;
  random_shuffle := λ l g, (reverse l, g);
  spherical_window_mask := λ D,
    TorchMask (Tensor D (replicate (Z.to_nat (D * D * D)) (Fin (1 # 2))));
  cosine_dilation_mask := λ vol _ _ _,
    ArrayMask (Tensor (shape0 vol) (replicate (length (voxels vol)) (Fin (1 # 4))));
  ImageSource_from_file := toy_source;
  parse_mrc := λ _, ArrayMask (Tensor 4 (replicate 64 f_zero));
  splitext_root := λ p, p
|}.

(** Constant volumes of side 4 at the locations 0 to 3. *)
Definition toy_volume (q : Q) : tensor float64 := Tensor 4 (replicate 64 (Fin q)).

Definition toy_world : world unit :=
  World (<[0%nat := toy_volume 2]> (<[1%nat := toy_volume 2]>
        (<[2%nat := toy_volume 3]> (<[3%nat := toy_volume 1]> ∅)))) ().

(** A curve of length 2 for the toy volumes of side 4. *)
Definition toy_curve : DataFrame :=
  [(f_zero, f_one); (Fin (1 # 4), Fin (1 # 2))].

(** The masks of the toy run of the orchestrator. *)
Definition toy_masks : list (string * option mask_value) :=
  [ ("No Mask", None);
    ("Spherical", Some (spherical_window_mask 4));
    ("Loose", Some (cosine_dilation_mask (toy_volume 2) 25 15 f_one));
    ("Tight", Some (cosine_dilation_mask (toy_volume 2) 6 6 f_one)) ].

(** Command lines for the toy loaders: three volumes with [--corrected 10],
    the third with a pixel size of its own; and two volumes without pixel
    size. *)
Definition toy_args_conflict : Namespace :=
  {| args_volumes := ["full.mrc"; "half1.mrc"; "other.mrc"];
     args_mask := None; args_corrected := Some (Fin 10);
     args_plot := None; args_Apix := None; args_outtxt := None |}.

Definition toy_args_three : Namespace :=
  {| args_volumes := ["full.mrc"; "half1.mrc"; "half2.mrc"];
     args_mask := None; args_corrected := Some (Fin 10);
     args_plot := None; args_Apix := None; args_outtxt := None |}.

Definition toy_args_no_apix : Namespace :=
  {| args_volumes := ["half2.mrc"; "half2.mrc"];
     args_mask := None; args_corrected := None;
     args_plot := None; args_Apix := Some f_zero; args_outtxt := None |}.

(** Two volumes of side 6 whose voxels all differ, at the locations 1 and 2,
    and a curve of length 3 for them. *)
Definition toy_ramp (a b : Z) : tensor float64 :=
  Tensor 6 ((λ k, Fin (inject_Z (a * k + b))) <$> arange 0 216).

Definition toy_world6 : world unit :=
  World (<[1%nat := toy_ramp 1 1]> (<[2%nat := toy_ramp 2 (-5)]> ∅)) ().

Definition toy_curve6 : DataFrame :=
  [(f_zero, f_one); (Fin (1 # 6), Fin (1 # 2)); (Fin (2 # 6), Fin (1 # 4))].

(** A computation leaves the tensor at [l] as it found it, whatever it
    returns. *)
Definition preserves {G A} (l : nat) (m : M G A) : Prop :=
  ∀ w, heap (m w).2 !!! l = heap w !!! l.

(** The toy run of [calculate_fsc] without mask, of lines 263-285 of the
    orchestrator, and a command line with three volumes and no option. *)
Definition toy_fsc : DataFrame * world unit :=
  match calculate_fsc 1%nat 2%nat None None toy_world with
  | (Ok fsc_vals, w1) => (fsc_vals, w1)
  | (Err _, w1) => ([], w1)
  end.

Definition toy_curves
    : (list (string * DataFrame) * list (string * option float64)) * world unit :=
  match cryosparc_curves 1%nat 2%nat toy_masks f_one toy_world with
  | (Ok curves, w1) => (curves, w1)
  | (Err _, w1) => (([], []), w1)
  end.

Definition toy_args_plain : Namespace :=
  {| args_volumes := ["full.mrc"; "half1.mrc"; "half2.mrc"];
     args_mask := None; args_corrected := None;
     args_plot := None; args_Apix := None; args_outtxt := None |}.

Definition toy_main : main_report * world unit :=
  match main toy_args_plain toy_world with
  | (Ok r, w1) => (r, w1)
  | (Err _, w1) => (ReportCurve [] (None, None), w1)
  end.

Definition toy_table : FscTable * world unit :=
  match calculate_cryosparc_fscs 0%nat 1%nat 2%nat None (25, 15) (TightTuple 6 6)
          f_one None None toy_world with
  | (Ok tbl, w1) => (tbl, w1)
  | (Err _, w1) => ({| tbl_index := []; tbl_columns := [] |}, w1)
  end.

Definition toy_dists : list Z :=
  match get_fftn_dists 4 with
  | Ok dists => dists
  | Err _ => []
  end.

(** * Verification *)

(** ** Floats *)

Lemma f_gt_inv a b :
  f_gt a b = true → ∃ x y, a = Fin x ∧ b = Fin y ∧ (y < x)%Q.
Proof.
  destruct a as [|x], b as [|y]; simpl; try discriminate.
  intros H. exists x, y. repeat split.
  apply Qnot_le_lt. intros Hle. apply Qle_bool_iff in Hle.
  rewrite Hle in H. discriminate.
Qed.

Lemma f_gt_Fin x y : f_gt (Fin x) (Fin y) = true ↔ (y < x)%Q.
Proof.
  simpl. split.
  - intros H. apply Qnot_le_lt. intros Hle. apply Qle_bool_iff in Hle.
    rewrite Hle in H. discriminate.
  - intros H. destruct (Qle_bool x y) eqn:E; [|done].
    apply Qle_bool_iff in E. exfalso. eapply Qlt_not_le; eauto.
Qed.

Lemma f_ge_Fin x y : f_ge (Fin x) (Fin y) = true ↔ (y <= x)%Q.
Proof. simpl. apply Qle_bool_iff. Qed.

Lemma f_gt_false_Fin x y : f_gt (Fin x) (Fin y) = false ↔ (x <= y)%Q.
Proof.
  simpl. rewrite negb_false_iff. apply Qle_bool_iff.
Qed.

(** ** The pandas maximum *)

Lemma series_max_step_spec acc x :
  let m := series_max_step acc x in
  (m = acc ∨ m = x) ∧
  (f_isnan acc = false ∨ f_isnan x = false → f_isnan m = false) ∧
  (f_isnan acc = false → f_ge m acc = true) ∧
  (f_isnan x = false → f_ge m x = true).
Proof.
  unfold series_max_step.
  destruct x as [|x], acc as [|a]; simpl.
  - repeat split; auto; intros; try discriminate. destruct H; discriminate.
  - repeat split; auto; intros; try discriminate. apply Qle_bool_iff, Qle_refl.
  - repeat split; auto; intros; try discriminate. apply Qle_bool_iff, Qle_refl.
  - destruct (Qle_bool x a) eqn:E; simpl.
    + repeat split; auto; intros.
      * apply Qle_bool_iff, Qle_refl.
    + assert (a < x)%Q as Hlt.
      { apply Qnot_le_lt. intros Hle. apply Qle_bool_iff in Hle. congruence. }
      repeat split; auto; intros.
      * apply Qle_bool_iff, Qlt_le_weak, Hlt.
      * apply Qle_bool_iff, Qle_refl.
Qed.

Lemma f_ge_trans a b c : f_ge a b = true → f_ge b c = true → f_ge a c = true.
Proof.
  destruct a, b, c; simpl; try discriminate.
  rewrite !Qle_bool_iff. intros. eapply Qle_trans; eauto.
Qed.

Lemma foldl_series_max_spec xs : ∀ acc,
  let m := foldl series_max_step acc xs in
  (m = acc ∨ m ∈ xs) ∧
  (f_isnan acc = false ∨ (∃ x, x ∈ xs ∧ f_isnan x = false) → f_isnan m = false) ∧
  (f_isnan acc = false → f_ge m acc = true) ∧
  (∀ x, x ∈ xs → f_isnan x = false → f_ge m x = true).
Proof.
  induction xs as [|x xs IH]; intros acc; simpl.
  - repeat split; auto.
    + intros [H|(x & Hx & _)]; [done|]. by apply elem_of_nil in Hx.
    + intros Hacc. destruct acc; [discriminate|]. apply Qle_bool_iff, Qle_refl.
    + intros x Hx. by apply elem_of_nil in Hx.
  - destruct (IH (series_max_step acc x)) as (Hin & Hnan & Hacc & Hall).
    destruct (series_max_step_spec acc x) as (Hsel & Hsnan & Hsacc & Hsx).
    simpl in *. repeat split.
    + destruct Hin as [->|Hin]; [|right; by apply elem_of_cons; right].
      destruct Hsel as [->| ->]; [by left|right; apply elem_of_cons; by left].
    + intros [H|(y & Hy & Hynan)].
      * apply Hnan. left. apply Hsnan. by left.
      * apply elem_of_cons in Hy as [->|Hy].
        -- apply Hnan. left. apply Hsnan. by right.
        -- apply Hnan. right. eauto.
    + intros H. eapply f_ge_trans; [apply Hacc|apply Hsacc]; auto.
    + intros y Hy Hynan. apply elem_of_cons in Hy as [->|Hy].
      * eapply f_ge_trans; [apply Hacc|apply Hsx]; auto.
      * by apply Hall.
Qed.

Lemma series_max_spec xs x0 :
  x0 ∈ xs → f_isnan x0 = false →
  series_max xs ∈ xs ∧ f_isnan (series_max xs) = false ∧
  ∀ x, x ∈ xs → f_isnan x = false → f_ge (series_max xs) x = true.
Proof.
  intros Hx0 Hnan. unfold series_max.
  destruct (foldl_series_max_spec xs NaN) as (Hin & Hn & _ & Hall).
  simpl in *.
  assert (f_isnan (foldl series_max_step NaN xs) = false) as Hm by (apply Hn; right; eauto).
  repeat split; auto.
  destruct Hin as [Heq|Hin]; [|done]. rewrite Heq in Hm. discriminate.
Qed.

(** ** Threshold extraction *)

Lemma threshold_guard_existsb cutoff (df : DataFrame) :
  existsb id (zip_with andb ((λ x, f_gt x f_zero) <$> df_pixres df)
                            ((λ y, f_ge y cutoff) <$> df_fsc df))
  = existsb (λ r, f_gt r.1 f_zero && f_ge r.2 cutoff) df.
Proof.
  unfold df_pixres, df_fsc. induction df as [|[p f] df IH]; csimpl; [done|].
  by rewrite IH.
Qed.

Lemma threshold_select_elem cutoff (df : DataFrame) x :
  x ∈ select ((λ y, f_ge y cutoff) <$> df_fsc df) (df_pixres df)
  ↔ ∃ r, r ∈ df ∧ f_ge r.2 cutoff = true ∧ r.1 = x.
Proof.
  unfold df_pixres, df_fsc. induction df as [|[p f] df IH]; csimpl.
  - split; [intros H; by apply elem_of_nil in H|].
    intros (r & Hr & _). by apply elem_of_nil in Hr.
  - destruct (f_ge f cutoff) eqn:E.
    + rewrite elem_of_cons, IH. split.
      * intros [->|(r & Hr & Hge & Hx)].
        -- exists (p, f). split; [apply elem_of_cons; by left|done].
        -- exists r. split; [apply elem_of_cons; by right|done].
      * intros (r & Hr & Hge & Hx). apply elem_of_cons in Hr as [->|Hr].
        -- by left.
        -- right. eauto.
    + rewrite IH. split.
      * intros (r & Hr & Hge & Hx). exists r.
        split; [apply elem_of_cons; by right|done].
      * intros (r & Hr & Hge & Hx). apply elem_of_cons in Hr as [->|Hr].
        -- simpl in Hge. congruence.
        -- eauto.
Qed.

Lemma threshold_at_spec cutoff (df : DataFrame) :
  is_threshold cutoff df (threshold_at cutoff df).
Proof.
  unfold threshold_at. cbv zeta. rewrite threshold_guard_existsb.
  destruct (existsb _ df) eqn:E; simpl.
  - apply existsb_exists in E as ([p f] & Hin & Hr). simpl in Hr.
    apply andb_true_iff in Hr as [Hgt Hge].
    apply list_elem_of_In in Hin.
    destruct (f_gt_inv _ _ Hgt) as (px & z & -> & Hz & Hlt).
    assert (Fin px ∈ select ((λ y, f_ge y cutoff) <$> df_fsc df) (df_pixres df)) as Hsel.
    { apply threshold_select_elem. exists (Fin px, f). done. }
    destruct (series_max_spec _ _ Hsel eq_refl) as (Hmin & Hmnan & Hmax).
    apply threshold_select_elem in Hmin as (r & Hrin & Hrge & Hrx).
    pose proof (Hmax _ Hsel eq_refl) as Hge0.
    split.
    + exists r. split; [done|]. split; [|done]. split; [|done].
      rewrite Hrx. destruct (series_max _) as [|m]; [discriminate|].
      injection Hz as <-. apply f_gt_Fin. apply f_ge_Fin in Hge0.
      eapply Qlt_le_trans; eauto.
    + intros [p' f'] Hin' [Hgt' Hge']. simpl in *.
      destruct (f_gt_inv _ _ Hgt') as (px' & z' & -> & _ & _).
      apply Hmax; [|done]. apply threshold_select_elem. exists (Fin px', f'). done.
  - intros r Hin [Hgt Hge].
    assert (existsb (λ r, f_gt r.1 f_zero && f_ge r.2 cutoff) df = true) as E'.
    { apply existsb_exists. exists r. split; [by apply list_elem_of_In|].
      by rewrite Hgt, Hge. }
    congruence.
Qed.

(** C7. For every curve, [get_fsc_thresholds] returns, for the cutoff 0.5 and
    for the cutoff 0.143, the largest pixel resolution among the entries with
    positive pixel resolution and correlation at least the cutoff, and [None]
    exactly when no such entry exists; the DC entry never makes a threshold
    defined. *)
Theorem get_fsc_thresholds_maximal (fsc_vals : DataFrame) (apix_ : float64)
    (verbose : bool) :
  is_threshold cutoff_05 fsc_vals (get_fsc_thresholds fsc_vals apix_ verbose).1 ∧
  is_threshold cutoff_143 fsc_vals (get_fsc_thresholds fsc_vals apix_ verbose).2.
Proof.
  unfold get_fsc_thresholds. simpl. split; apply threshold_at_spec.
Qed.

(** A curve reduced to its DC entry has no threshold, whatever the
    correlation stored there. *)
Example dc_entry_gives_no_threshold (y apix_ : float64) (verbose : bool) :
  get_fsc_thresholds [(f_zero, y)] apix_ verbose = (None, None).
Proof. reflexivity. Qed.

(** ** Ranges and the voxel grid *)

Lemma length_arange lo hi : length (arange lo hi) = Z.to_nat (hi - lo).
Proof. unfold arange. by rewrite length_fmap, length_seq. Qed.

Lemma lookup_arange lo hi (k : nat) :
  (k < Z.to_nat (hi - lo))%nat → arange lo hi !! k = Some (lo + Z.of_nat k).
Proof.
  intros Hk. unfold arange. rewrite list_lookup_fmap, lookup_seq_lt by done.
  done.
Qed.

Lemma arange_nil lo hi : hi <= lo → arange lo hi = [].
Proof.
  intros H. unfold arange. replace (Z.to_nat (hi - lo)) with 0%nat by lia. done.
Qed.

Lemma arange_cons lo hi : lo < hi → arange lo hi = lo :: arange (lo + 1) hi.
Proof.
  intros H. unfold arange.
  replace (Z.to_nat (hi - lo)) with (S (Z.to_nat (hi - (lo + 1)))) by lia.
  csimpl. f_equal; [lia|].
  rewrite <- fmap_S_seq, <- list_fmap_compose.
  apply list_fmap_ext. intros _ k _. simpl. lia.
Qed.

Lemma arange_shift lo hi d :
  arange (lo + d) (hi + d) = (λ a, a + d) <$> arange lo hi.
Proof.
  unfold arange. rewrite <- list_fmap_compose.
  replace (hi + d - (lo + d)) with (hi - lo) by lia.
  apply list_fmap_ext. intros _ k _. simpl. lia.
Qed.

Lemma elem_of_arange lo hi x : x ∈ arange lo hi ↔ lo <= x < hi.
Proof.
  unfold arange. rewrite list_elem_of_fmap. split.
  - intros (k & -> & Hk). apply elem_of_seq in Hk. lia.
  - intros H. exists (Z.to_nat (x - lo)). split; [lia|].
    apply elem_of_seq. lia.
Qed.

Lemma length_bind_const {A B} (f : A → list B) (l : list A) (n : nat) :
  (∀ a, length (f a) = n) → length (l ≫= f) = (length l * n)%nat.
Proof.
  intros Hf. induction l as [|a l IH]; [done|].
  rewrite bind_cons, length_app, IH, Hf. simpl. lia.
Qed.

Lemma lookup_bind_const {A B} (f : A → list B) (l : list A) (n i j : nat) :
  (∀ a, length (f a) = n) → (j < n)%nat →
  (l ≫= f) !! (i * n + j)%nat = l !! i ≫= λ a, f a !! j.
Proof.
  intros Hf Hj. revert i. induction l as [|a l IH]; intros i; [done|].
  rewrite bind_cons. destruct i as [|i]; simpl.
  - rewrite lookup_app_l by (rewrite Hf; lia). done.
  - rewrite lookup_app_r by (rewrite Hf; lia).
    rewrite Hf. replace (n + i * n + j - n)%nat with (i * n + j)%nat by lia.
    apply IH.
Qed.

Lemma fmap_bind_comm {A B B'} (h : B → B') (k : A → list B) (l : list A) :
  h <$> (l ≫= k) = l ≫= (λ a, h <$> k a).
Proof.
  induction l as [|a l IH]; [done|].
  by rewrite !bind_cons, fmap_app, IH.
Qed.

Lemma length_voxel_indices D :
  length (voxel_indices D) = (Z.to_nat D * (Z.to_nat D * Z.to_nat D))%nat.
Proof.
  unfold voxel_indices.
  rewrite (length_bind_const _ _ (Z.to_nat D * Z.to_nat D)).
  - rewrite length_arange. f_equal. lia.
  - intros a. rewrite (length_bind_const _ _ (Z.to_nat D)).
    + rewrite length_arange. f_equal. lia.
    + intros b. rewrite (length_bind_const _ _ 1).
      * rewrite length_arange. lia.
      * done.
Qed.

Lemma lookup_voxel_indices D (a b c : nat) :
  (a < Z.to_nat D)%nat → (b < Z.to_nat D)%nat → (c < Z.to_nat D)%nat →
  voxel_indices D !! ((a * Z.to_nat D + b) * Z.to_nat D + c)%nat
  = Some (Z.of_nat a, Z.of_nat b, Z.of_nat c).
Proof.
  intros Ha Hb Hc. unfold voxel_indices.
  replace ((a * Z.to_nat D + b) * Z.to_nat D + c)%nat
    with (a * (Z.to_nat D * Z.to_nat D) + (b * Z.to_nat D + c))%nat by lia.
  rewrite (lookup_bind_const _ _ (Z.to_nat D * Z.to_nat D)); cycle 1.
  { intros a'. rewrite (length_bind_const _ _ (Z.to_nat D)).
    - by rewrite length_arange, Z.sub_0_r.
    - intros b'. rewrite (length_bind_const _ _ 1); [|done].
      rewrite length_arange. lia. }
  { nia. }
  rewrite lookup_arange by lia. simpl.
  rewrite (lookup_bind_const _ _ (Z.to_nat D)); cycle 1.
  { intros b'. rewrite (length_bind_const _ _ 1); [|done].
    rewrite length_arange. lia. }
  { done. }
  rewrite lookup_arange by lia. simpl.
  replace c with (c * 1 + 0)%nat at 1 by lia.
  rewrite (lookup_bind_const _ _ 1) by (done || lia).
  rewrite lookup_arange by lia. simpl. do 3 f_equal; lia.
Qed.

(** The grid built by [get_fftn_dists] from the centred coordinates is the
    grid of squared centre distances, voxel by voxel. *)
Lemma meshgrid_center_dist2 D :
  0 <= D → D mod 2 = 0 →
  (x2 ← arange (Z.opp D / 2) (D / 2); x1 ← arange (Z.opp D / 2) (D / 2);
   x0 ← arange (Z.opp D / 2) (D / 2); [x0 ^ 2 + x1 ^ 2 + x2 ^ 2])
  = center_dist2 D <$> voxel_indices D.
Proof.
  intros HD Heven.
  assert (arange (Z.opp D / 2) (D / 2) = (λ a, a - D / 2) <$> arange 0 D) as ->.
  { replace (Z.opp D / 2) with (0 + - (D / 2)).
    2:{ rewrite Z.add_0_l. apply Z.div_unique_exact; [lia|].
        pose proof (Z.div_mod D 2). lia. }
    replace (D / 2) with (D + - (D / 2)) at 2.
    2:{ pose proof (Z.div_mod D 2). lia. }
    rewrite arange_shift. apply list_fmap_ext. intros; lia. }
  unfold voxel_indices.
  rewrite list_fmap_bind, fmap_bind_comm.
  apply list_bind_ext; [|done]. intros a. simpl.
  rewrite list_fmap_bind, fmap_bind_comm.
  apply list_bind_ext; [|done]. intros b. simpl.
  rewrite list_fmap_bind, fmap_bind_comm.
  apply list_bind_ext; [|done]. intros c. done.
Qed.

Lemma get_fftn_dists_even D :
  0 < D → D mod 2 = 0 →
  get_fftn_dists D = Ok (center_dist2 D <$> voxel_indices D).
Proof.
  intros HD Heven. unfold get_fftn_dists. cbv zeta.
  rewrite meshgrid_center_dist2 by lia.
  assert (length (arange (Z.opp D / 2) (D / 2)) = Z.to_nat D) as ->.
  { rewrite length_arange. f_equal.
    assert (Z.opp D / 2 = - (D / 2)) as ->.
    { symmetry. apply Z.div_unique_exact; [lia|]. pose proof (Z.div_mod D 2). lia. }
    pose proof (Z.div_mod D 2). lia. }
  assert (0 <= D / 2 < D) as Hm.
  { pose proof (Z.div_mod D 2). lia. }
  unfold index3, norm_index.
  rewrite decide_True by lia. simpl.
  rewrite list_lookup_fmap, lookup_voxel_indices by lia. simpl.
  rewrite Z2Nat.id by lia. rewrite Z.sub_diag. done.
Qed.

(** ** The products with the mask *)

Section Masking.
Context {G : Type}.
Implicit Types (w : world G) (m : option mask_value).

Lemma imul_opt_rng vol m w : rng (imul_opt vol m w).2 = rng w.
Proof. by destruct m as [[a|a]|]. Qed.

Lemma imul_opt_shape vol m w l :
  shape0 (heap (imul_opt vol m w).2 !!! l) = shape0 (heap w !!! l).
Proof.
  destruct m as [[a|a]|]; simpl; [|done|done].
  destruct (decide (vol = l)) as [->|Hne].
  - by rewrite lookup_total_insert_eq.
  - by rewrite lookup_total_insert_ne.
Qed.

Lemma imul_opt_None vol w : (imul_opt vol None w).2 = w.
Proof. done. Qed.

Lemma premasked_shape vol1 vol2 m w l :
  shape0 (heap (premasked vol1 vol2 m w) !!! l) = shape0 (heap w !!! l).
Proof. unfold premasked. by rewrite !imul_opt_shape. Qed.

Lemma premasked_rng vol1 vol2 m w : rng (premasked vol1 vol2 m w) = rng w.
Proof. unfold premasked. by rewrite !imul_opt_rng. Qed.

Lemma premasked_None vol1 vol2 w : premasked vol1 vol2 None w = w.
Proof. done. Qed.

(** A numpy mask leaves the world as it is. *)
Lemma premasked_array vol1 vol2 a w :
  premasked vol1 vol2 (Some (ArrayMask a)) w = w.
Proof. done. Qed.

(** With a torch mask, the first volume ends up multiplied in place. *)
Lemma premasked_lookup_1 vol1 vol2 a w :
  vol1 ≠ vol2 →
  heap (premasked vol1 vol2 (Some (TorchMask a)) w) !!! vol1
  = tensor_mul (heap w !!! vol1) a.
Proof.
  intros Hne. unfold premasked. simpl.
  by rewrite lookup_total_insert_ne, lookup_total_insert_eq.
Qed.

Lemma premasked_lookup_2 vol1 vol2 a w :
  vol1 ≠ vol2 →
  heap (premasked vol1 vol2 (Some (TorchMask a)) w) !!! vol2
  = tensor_mul (heap w !!! vol2) a.
Proof.
  intros Hne. unfold premasked. simpl.
  by rewrite lookup_total_insert_eq, lookup_total_insert_ne.
Qed.

Lemma premasked_lookup_other vol1 vol2 m w l :
  l ≠ vol1 → l ≠ vol2 →
  heap (premasked vol1 vol2 m w) !!! l = heap w !!! l.
Proof.
  intros H1 H2. unfold premasked. destruct m as [[a|a]|]; simpl; [|done|done].
  by rewrite !lookup_total_insert_ne.
Qed.

Lemma masked_None vol1 vol2 w :
  masked vol1 vol2 None w = (heap w !!! vol1, heap w !!! vol2).
Proof. done. Qed.

(** With a mask of either library, the first name stands for the product. *)
Lemma masked_1 vol1 vol2 mask w :
  vol1 ≠ vol2 →
  (masked vol1 vol2 (Some mask) w).1 = tensor_mul (heap w !!! vol1) (mask_data mask).
Proof.
  intros Hne. destruct mask as [a|a]; [|done].
  by apply premasked_lookup_1.
Qed.

Lemma masked_2 vol1 vol2 mask w :
  vol1 ≠ vol2 →
  (masked vol1 vol2 (Some mask) w).2 = tensor_mul (heap w !!! vol2) (mask_data mask).
Proof.
  intros Hne. destruct mask as [a|a]; [|done].
  by apply premasked_lookup_2.
Qed.

Lemma masked_shape_1 vol1 vol2 m w :
  shape0 (masked vol1 vol2 m w).1 = shape0 (heap w !!! vol1).
Proof.
  destruct m as [[a|a]|]; [|done|done].
  apply (premasked_shape vol1 vol2 (Some (TorchMask a))).
Qed.

Lemma masked_shape_2 vol1 vol2 m w :
  shape0 (masked vol1 vol2 m w).2 = shape0 (heap w !!! vol2).
Proof.
  destruct m as [[a|a]|]; [|done|done].
  apply (premasked_shape vol1 vol2 (Some (TorchMask a))).
Qed.

(** Both functions start by the two products; the names then stand for the
    two masked tensors. *)
Lemma bind_premask {A} vol1 vol2 m (k : local → local → M G A) w :
  (x1 ←ᴹ imul_opt vol1 m ; x2 ←ᴹ imul_opt vol2 m ; k x1 x2) w
  = k (rebound vol1 m w) (rebound vol2 m w) (premasked vol1 vol2 m w).
Proof. unfold bind, premasked. by destruct m as [[a|a]|]. Qed.

Lemma deref_rebound_1 vol1 vol2 m w :
  deref (rebound vol1 m w) (premasked vol1 vol2 m w)
  = (Ok (masked vol1 vol2 m w).1, premasked vol1 vol2 m w).
Proof. by destruct m as [[a|a]|]. Qed.

Lemma deref_rebound_2 vol1 vol2 m w :
  deref (rebound vol2 m w) (premasked vol1 vol2 m w)
  = (Ok (masked vol1 vol2 m w).2, premasked vol1 vol2 m w).
Proof. by destruct m as [[a|a]|]. Qed.

End Masking.

(** ** The loop of [calculate_fsc] *)

Lemma fmap_const_replicate {A B} (b : B) (l : list A) :
  (λ _, b) <$> l = replicate (length l) b.
Proof. induction l; csimpl; by f_equal. Qed.

Lemma zip_with_fmap_same {A B B' D} (f : B → B' → D) (g : A → B) (g' : A → B')
    (l : list A) :
  zip_with f (g <$> l) (g' <$> l) = (λ x, f (g x) (g' x)) <$> l.
Proof. induction l; csimpl; by f_equal. Qed.

Lemma lt_mask_zero dists : lt_mask dists 0 = replicate (length dists) false.
Proof. unfold lt_mask. by rewrite <- fmap_const_replicate. Qed.

Lemma shell_of_ring D i :
  shell_of (lt_mask (center_dist2 D <$> voxel_indices D) i)
           (lt_mask (center_dist2 D <$> voxel_indices D) (i - 1))
  = in_ring D i <$> voxel_indices D.
Proof.
  unfold shell_of, lt_mask.
  rewrite <- !list_fmap_compose.
  rewrite (zip_with_fmap_same andb). done.
Qed.

Section Loop.
Context {C G : Type} `{!Collaborators C G}.

Lemma fsc_loop dists (v1 v2 : list C) (n : nat) : ∀ k acc,
  foldl (fsc_step dists v1 v2) (lt_mask dists (k - 1), acc)
        (arange k (k + Z.of_nat n))
  = (lt_mask dists (k + Z.of_nat n - 1),
     acc ++ ((λ i, shell_corr
                     (select (shell_of (lt_mask dists i) (lt_mask dists (i - 1))) v1)
                     (select (shell_of (lt_mask dists i) (lt_mask dists (i - 1))) v2))
             <$> arange k (k + Z.of_nat n))).
Proof.
  induction n as [|n IH]; intros k acc.
  - rewrite arange_nil by lia. simpl. rewrite app_nil_r.
    do 2 f_equal. lia.
  - rewrite arange_cons by lia. csimpl.
    replace (k + Z.of_nat (S n)) with ((k + 1) + Z.of_nat n) by lia.
    replace (lt_mask dists k) with (lt_mask dists (k + 1 - 1))
      by (f_equal; lia).
    rewrite IH. rewrite <- app_assoc. simpl.
    replace (k + 1 - 1) with k by lia. done.
Qed.

Lemma length_pixres_axis D : length (pixres_axis D) = Z.to_nat (D / 2).
Proof. unfold pixres_axis. rewrite length_fmap, length_arange. f_equal. lia. Qed.

Lemma length_shell_values D (v1 v2 : list C) :
  length (shell_values D v1 v2) = Z.to_nat (D / 2 - 1).
Proof. unfold shell_values. by rewrite length_fmap, length_arange. Qed.

(** The value of [calculate_fsc] on a volume of even side. *)
Lemma calculate_fsc_unfold vol1 vol2 initial_mask out_file (w : world G) :
  let wm := premasked vol1 vol2 initial_mask w in
  let vm := masked vol1 vol2 initial_mask w in
  let D := shape0 (heap w !!! vol1) in
  calculate_fsc vol1 vol2 initial_mask out_file w
  = match get_fftn_dists D with
    | Err e => (Err e, wm)
    | Ok dists =>
        (mk_DataFrame (pixres_axis D)
           (snd (foldl (fsc_step dists (voxels (fftn_center vm.1))
                                       (voxels (fftn_center vm.2)))
                       (replicate (Z.to_nat (D * D * D)) false, [f_one])
                       (arange 1 (D / 2)))), wm)
    end.
Proof.
  intros wm vm D. subst wm vm D. unfold calculate_fsc.
  rewrite (bind_premask vol1 vol2 initial_mask).
  unfold bind at 1. rewrite deref_rebound_1. cbv beta iota zeta.
  rewrite (masked_shape_1 vol1 vol2 initial_mask w).
  unfold bind at 1. unfold lift at 1.
  destruct (get_fftn_dists _) as [dists|e]; [|done].
  unfold bind at 1. rewrite deref_rebound_2. cbv beta iota zeta.
  done.
Qed.

Lemma calculate_fsc_eq vol1 vol2 initial_mask out_file (w : world G) D :
  shape0 (heap w !!! vol1) = D → 0 < D → D mod 2 = 0 →
  let wm := premasked vol1 vol2 initial_mask w in
  let vm := masked vol1 vol2 initial_mask w in
  calculate_fsc vol1 vol2 initial_mask out_file w
  = (Ok (zip (pixres_axis D)
             (f_one :: shell_values D (voxels (fftn_center vm.1))
                                      (voxels (fftn_center vm.2)))),
     wm).
Proof.
  intros HD Hpos Heven wm vm. rewrite calculate_fsc_unfold. cbv zeta.
  fold wm vm. rewrite HD.
  rewrite get_fftn_dists_even by done. unfold lift.
  assert (1 <= D / 2) as Hhalf by (pose proof (Z.div_mod D 2); lia).
  replace (replicate (Z.to_nat (D * D * D)) false)
    with (lt_mask (center_dist2 D <$> voxel_indices D) (1 - 1)).
  2:{ simpl. rewrite lt_mask_zero, length_fmap, length_voxel_indices.
      f_equal. lia. }
  replace (D / 2) with (1 + Z.of_nat (Z.to_nat (D / 2 - 1))) at 1 by lia.
  rewrite fsc_loop. simpl.
  unfold mk_DataFrame. rewrite decide_True.
  - f_equal. f_equal. f_equal. f_equal. unfold shell_values.
    replace (1 + Z.of_nat (Z.to_nat (D / 2 - 1))) with (D / 2) by lia.
    apply list_fmap_ext. intros _ i _. by rewrite shell_of_ring.
  - rewrite length_pixres_axis. simpl. rewrite length_fmap, length_arange. lia.
Qed.

End Loop.

(** ** The FSC calculator *)

Lemma f_div_of_Z i D :
  D ≠ 0 → f_div (f_of_Z i) (f_of_Z D) = Fin (inject_Z i / inject_Z D).
Proof.
  intros HD. unfold f_div, f_of_Z.
  destruct (Qeq_bool (inject_Z D) 0) eqn:E; [|done].
  apply Qeq_bool_iff in E. exfalso. apply HD.
  apply inject_Z_injective. exact E.
Qed.

Lemma lookup_pixres_axis D i :
  0 <= i < D / 2 →
  pixres_axis D !! Z.to_nat i = Some (f_div (f_of_Z i) (f_of_Z D)).
Proof.
  intros Hi. unfold pixres_axis.
  rewrite list_lookup_fmap, lookup_arange by lia. simpl.
  replace (0 + Z.of_nat (Z.to_nat i)) with i by lia. done.
Qed.

Lemma pixres_increasing D i j :
  0 < D → i < j →
  f_lt (f_div (f_of_Z i) (f_of_Z D)) (f_div (f_of_Z j) (f_of_Z D)) = true.
Proof.
  intros HD Hij. rewrite !f_div_of_Z by lia.
  unfold f_lt. apply f_gt_Fin. unfold Qdiv.
  apply Qmult_lt_compat_r.
  - apply Qinv_lt_0_compat. change 0%Q with (inject_Z 0).
    by rewrite <- Zlt_Qlt.
  - by rewrite <- Zlt_Qlt.
Qed.

Section Calculator.
Context {C G : Type} `{!Collaborators C G}.

(** C4. For volumes of even side [D], the curve returned by [calculate_fsc]
    has exactly [D/2] entries; its pixel-resolution axis holds [i/D] at index
    [i], for [i = 0 .. D/2 - 1], and is strictly increasing; entry 0 of the
    correlations is the constant 1.0, whatever the volumes hold. *)
Theorem calculate_fsc_axis vol1 vol2 initial_mask out_file (w : world G) D :
  shape0 (heap w !!! vol1) = D → 0 < D → D mod 2 = 0 →
  ∃ fsc_vals w',
    calculate_fsc vol1 vol2 initial_mask out_file w = (Ok fsc_vals, w') ∧
    Z.of_nat (length fsc_vals) = D / 2 ∧
    (∀ i, 0 <= i < D / 2 →
       df_pixres fsc_vals !! Z.to_nat i = Some (f_div (f_of_Z i) (f_of_Z D))) ∧
    (∀ i j x y, 0 <= i → i < j → j < D / 2 →
       df_pixres fsc_vals !! Z.to_nat i = Some x →
       df_pixres fsc_vals !! Z.to_nat j = Some y →
       f_lt x y = true) ∧
    df_fsc fsc_vals !! 0%nat = Some f_one.
Proof.
  intros HD Hpos Heven.
  eexists _, _. split; [by apply calculate_fsc_eq|].
  assert (1 <= D / 2) as Hhalf by (pose proof (Z.div_mod D 2); lia).
  set (fsc := f_one :: shell_values D _ _).
  assert (length (pixres_axis D) = length fsc) as Hlen.
  { unfold fsc. simpl. rewrite length_pixres_axis, length_shell_values. lia. }
  assert (df_pixres (zip (pixres_axis D) fsc) = pixres_axis D) as Hpix.
  { unfold df_pixres. apply fst_zip. lia. }
  assert (df_fsc (zip (pixres_axis D) fsc) = fsc) as Hfsc.
  { unfold df_fsc. apply snd_zip. lia. }
  rewrite Hpix, Hfsc. repeat split.
  - rewrite length_zip_with, <- Hlen, length_pixres_axis. lia.
  - intros i Hi. by apply lookup_pixres_axis.
  - intros i j x y Hi Hij Hj Hx Hy.
    rewrite lookup_pixres_axis in Hx, Hy by lia.
    injection Hx as <-. injection Hy as <-. by apply pixres_increasing.
Qed.

(** C3. For volumes of even side [D] and every shell index [i] in
    [1 .. D/2 - 1], the correlation stored at index [i] is the real part of
    <v1, v2> / sqrt(<v1, v1> * <v2, v2>), where [v1] and [v2] are the centred
    transform coefficients of the two volumes (multiplied by the mask, when
    one is given) on the voxels whose centre distance [d] satisfies [d < i] and
    not [d < i - 1]. *)
Theorem calculate_fsc_shell vol1 vol2 initial_mask out_file (w : world G) D i :
  shape0 (heap w !!! vol1) = D → D mod 2 = 0 → 1 <= i < D / 2 →
  let vm := masked vol1 vol2 initial_mask w in
  let v1 := ring_coeffs D i (voxels (fftn_center vm.1)) in
  let v2 := ring_coeffs D i (voxels (fftn_center vm.2)) in
  ∃ fsc_vals w',
    calculate_fsc vol1 vol2 initial_mask out_file w = (Ok fsc_vals, w') ∧
    df_fsc fsc_vals !! Z.to_nat i
    = Some (c_real (c_div (vdot v1 v2) (c_sqrt (c_mul (vdot v1 v1) (vdot v2 v2))))).
Proof.
  intros HD Heven Hi vm v1 v2.
  assert (0 < D) as Hpos by (pose proof (Z.div_mod D 2); lia).
  eexists _, _. split; [by apply calculate_fsc_eq|].
  fold vm.
  set (fsc := f_one :: shell_values D _ _).
  assert (df_fsc (zip (pixres_axis D) fsc) = fsc) as ->.
  { unfold df_fsc, fsc. apply snd_zip. simpl.
    rewrite length_pixres_axis, length_shell_values. lia. }
  unfold fsc. replace (Z.to_nat i) with (S (Z.to_nat (i - 1))) by lia.
  simpl. unfold shell_values.
  rewrite list_lookup_fmap, lookup_arange by lia. simpl.
  replace (1 + Z.of_nat (Z.to_nat (i - 1))) with i by lia. done.
Qed.

End Calculator.

(** The statement of C4 on the toy volumes of side 4. *)
Lemma calculate_fsc_axis_witness :
  shape0 (heap toy_world !!! 1%nat) = 4 ∧ 0 < 4 ∧ 4 mod 2 = 0 ∧
  ∃ fsc_vals w',
    calculate_fsc 1%nat 2%nat None None toy_world = (Ok fsc_vals, w') ∧
    Z.of_nat (length fsc_vals) = 4 / 2 ∧
    (∀ i, 0 <= i < 4 / 2 →
       df_pixres fsc_vals !! Z.to_nat i = Some (f_div (f_of_Z i) (f_of_Z 4))) ∧
    (∀ i j x y, 0 <= i → i < j → j < 4 / 2 →
       df_pixres fsc_vals !! Z.to_nat i = Some x →
       df_pixres fsc_vals !! Z.to_nat j = Some y →
       f_lt x y = true) ∧
    df_fsc fsc_vals !! 0%nat = Some f_one.
Proof.
  assert (shape0 (heap toy_world !!! 1%nat) = 4) as H1 by reflexivity.
  assert (0 < 4) as H2 by lia.
  assert (4 mod 2 = 0) as H3 by reflexivity.
  split; [exact H1|]. split; [exact H2|]. split; [exact H3|].
  exact (calculate_fsc_axis 1%nat 2%nat None None toy_world 4 H1 H2 H3).
Defined.

(** The statement of C3 on the toy volumes of side 4, shell 1. *)
Lemma calculate_fsc_shell_witness :
  shape0 (heap toy_world !!! 1%nat) = 4 ∧ 4 mod 2 = 0 ∧ 1 <= 1 < 4 / 2 ∧
  ∃ fsc_vals w',
    calculate_fsc 1%nat 2%nat None None toy_world = (Ok fsc_vals, w') ∧
    df_fsc fsc_vals !! Z.to_nat 1
    = Some (c_real (c_div
        (vdot (ring_coeffs 4 1 (voxels (fftn_center (heap toy_world !!! 1%nat))))
              (ring_coeffs 4 1 (voxels (fftn_center (heap toy_world !!! 2%nat)))))
        (c_sqrt (c_mul
           (vdot (ring_coeffs 4 1 (voxels (fftn_center (heap toy_world !!! 1%nat))))
                 (ring_coeffs 4 1 (voxels (fftn_center (heap toy_world !!! 1%nat)))))
           (vdot (ring_coeffs 4 1 (voxels (fftn_center (heap toy_world !!! 2%nat))))
                 (ring_coeffs 4 1 (voxels (fftn_center (heap toy_world !!! 2%nat))))))))).
Proof.
  assert (shape0 (heap toy_world !!! 1%nat) = 4) as H1 by reflexivity.
  assert (4 mod 2 = 0) as H3 by reflexivity.
  assert (1 <= 1 < 4 / 2) as H4 by (split; [lia|reflexivity]).
  split; [exact H1|]. split; [exact H3|]. split; [exact H4|].
  exact (calculate_fsc_shell 1%nat 2%nat None None toy_world 4 1 H1 H3 H4).
Defined.

(** ** The phase-randomization corrector *)

Lemma f_sub_one_nonzero q :
  f_eq (Fin q) f_one = false → f_eq (f_sub f_one (Fin q)) f_zero = false.
Proof.
  simpl. intros H. destruct (Qeq_bool (1 - q) 0) eqn:E; [|done].
  apply Qeq_bool_iff in E. apply Qeq_bool_neq in H. exfalso. apply H. lra.
Qed.

Lemma correct_shell_eq (fsc : list float64) (i : Z) (p x : float64) :
  fsc !! Z.to_nat i = Some x →
  correct_shell fsc i p = Ok (<[Z.to_nat i := corrected_value x p]> fsc).
Proof.
  intros Hx. unfold correct_shell, corrected_value, list_assign.
  pose proof (lookup_lt_Some _ _ _ Hx) as Hlt.
  destruct (f_eq p f_one) eqn:E1; [by rewrite decide_True|].
  destruct p as [|q]; simpl negb; cbv iota.
  - simpl. by rewrite list_insert_id.
  - rewrite Hx. unfold py_div. rewrite f_sub_one_nonzero by done. simpl.
    by rewrite decide_True.
Qed.

Section Corrector.
Context {C G : Type} `{!Collaborators C G}.

(** The loop of [correct_fsc]: entries [k .. k+n-1] are corrected when they
    lie beyond [phase_D]; nothing else changes. *)
Lemma correct_loop dists phase_D (s1 s2 : list C) (n : nat) : ∀ k fsc,
  0 <= k → (Z.to_nat (k + Z.of_nat n) <= length fsc)%nat →
  ∃ fsc',
    for_each (correct_step dists phase_D s1 s2) (lt_mask dists (k - 1), fsc)
             (arange k (k + Z.of_nat n))
    = Ok (lt_mask dists (k + Z.of_nat n - 1), fsc') ∧
    length fsc' = length fsc ∧
    ∀ (j : nat) x, fsc !! j = Some x →
      fsc' !! j = Some
        (if decide (k <= Z.of_nat j < k + Z.of_nat n ∧ phase_D < Z.of_nat j)
         then corrected_value x
                (shell_corr
                   (select (shell_of (lt_mask dists (Z.of_nat j))
                                     (lt_mask dists (Z.of_nat j - 1))) s1)
                   (select (shell_of (lt_mask dists (Z.of_nat j))
                                     (lt_mask dists (Z.of_nat j - 1))) s2))
         else x).
Proof.
  induction n as [|n IH]; intros k fsc Hk Hlen.
  - rewrite arange_nil by lia. simpl. exists fsc. split.
    { do 3 f_equal. lia. }
    split; [done|]. intros j x Hx. rewrite decide_False by lia. done.
  - rewrite arange_cons by lia. simpl.
    assert (is_Some (fsc !! Z.to_nat k)) as [xk Hxk].
    { apply lookup_lt_is_Some. lia. }
    set (p := shell_corr _ _).
    set (fsc1 := if phase_D <? k then <[Z.to_nat k := corrected_value xk p]> fsc
                 else fsc).
    assert ((if phase_D <? k then correct_shell fsc k p else Ok fsc) = Ok fsc1) as ->.
    { unfold fsc1. destruct (phase_D <? k); [|done]. by apply correct_shell_eq. }
    simpl.
    assert (length fsc1 = length fsc) as Hlen1.
    { unfold fsc1. destruct (phase_D <? k); [|done]. by rewrite length_insert. }
    replace (k + Z.of_nat (S n)) with ((k + 1) + Z.of_nat n) by lia.
    replace (lt_mask dists k) with (lt_mask dists (k + 1 - 1)) by (f_equal; lia).
    destruct (IH (k + 1) fsc1) as (fsc' & Hrun & Hlen' & Hval); [lia|lia|].
    exists fsc'. split; [exact Hrun|]. split; [lia|].
    intros j x Hx.
    destruct (decide (j = Z.to_nat k)) as [->|Hne].
    + assert (x = xk) as -> by congruence.
      assert (fsc1 !! Z.to_nat k
              = Some (if phase_D <? k then corrected_value xk p else xk)) as H1.
      { unfold fsc1. destruct (phase_D <? k); [|done].
        apply list_lookup_insert_eq. apply lookup_lt_Some in Hxk. lia. }
      rewrite (Hval _ _ H1). rewrite decide_False by lia.
      f_equal. rewrite Z2Nat.id by lia.
      destruct (Z.ltb_spec phase_D k).
      * rewrite decide_True by lia. done.
      * rewrite decide_False by lia. done.
    + assert (fsc1 !! j = Some x) as H1.
      { unfold fsc1. destruct (phase_D <? k); [|done].
        by rewrite list_lookup_insert_ne. }
      rewrite (Hval _ _ H1). f_equal.
      destruct (decide (k + 1 <= Z.of_nat j < k + 1 + Z.of_nat n ∧ phase_D < Z.of_nat j)).
      * rewrite decide_True by lia. done.
      * rewrite decide_False by lia. done.
Qed.

(** Any exception the loop raises comes from an index or a division. *)
Lemma correct_loop_errors dists phase_D (s1 s2 : list C) l : ∀ st e,
  for_each (correct_step dists phase_D s1 s2) st l = Err e →
  e = IndexError ∨ e = ZeroDivisionError.
Proof.
  induction l as [|i l IH]; intros [prev fsc] e; simpl; [done|].
  destruct (phase_D <? i); simpl.
  - unfold correct_shell, list_assign.
    destruct (f_eq _ f_one); simpl.
    { destruct (decide _); simpl; [apply IH|intros [= <-]; by left]. }
    destruct (negb _); simpl; [|apply IH].
    destruct (fsc !! Z.to_nat i); simpl; [|intros [= <-]; by left].
    unfold py_div. destruct (f_eq _ f_zero); simpl; [intros [= <-]; by right|].
    destruct (decide _); simpl; [apply IH|intros [= <-]; by left].
  - apply IH.
Qed.

End Corrector.

Lemma get_fftn_dists_errors D e :
  get_fftn_dists D = Err e → e = IndexError ∨ e = AssertionError.
Proof.
  unfold get_fftn_dists. cbv zeta.
  destruct (index3 _ _ _ _ _) as [d|]; [|intros [= <-]; by left].
  destruct (dist_is_zero d); [done|intros [= <-]; by right].
Qed.

Lemma length_select {A} (m : list bool) (v : list A) :
  (length m <= length v)%nat → length (select m v) = count_true m.
Proof.
  unfold count_true. revert v. induction m as [|b m IH]; intros v Hlen; [done|].
  destruct v as [|x v]; simpl in Hlen; [lia|].
  simpl. rewrite filter_cons. destruct b.
  - rewrite decide_True by done. simpl. f_equal. apply IH. lia.
  - rewrite decide_False by done. apply IH. lia.
Qed.

Lemma gather_perm {A} (L : list A) (inds : list nat) :
  inds ≡ₚ seq 0 (length L) → ∃ r, gather L inds = Ok r.
Proof.
  intros Hperm. unfold gather.
  destruct (mapM (λ j, L !! j) inds) as [r|] eqn:E; [by exists r|].
  exfalso.
  assert (is_Some (mapM (λ j, L !! j) inds)) as [r Hr]; [|congruence].
  apply mapM_is_Some_2. apply Forall_forall. intros j Hj. simpl.
  apply lookup_lt_is_Some.
  rewrite Hperm in Hj. apply elem_of_seq in Hj. lia.
Qed.

Lemma scatter_lookup_false {A} (m : list bool) (v vals : list A) k :
  m !! k = Some false → scatter m v vals !! k = v !! k.
Proof.
  revert v vals k. induction m as [|b m IH]; intros v vals k Hk; [done|].
  destruct v as [|x v]; [done|].
  destruct k as [|k]; simpl in Hk.
  - injection Hk as ->. done.
  - destruct b; simpl.
    + destruct vals; simpl; by apply IH.
    + by apply IH.
Qed.

Lemma length_scatter {A} (m : list bool) (v vals : list A) :
  length (scatter m v vals) = length v.
Proof.
  revert v vals. induction m as [|b m IH]; intros v vals; [done|].
  destruct v as [|x v]; [done|].
  destruct b; simpl; [destruct vals; simpl|]; by rewrite IH.
Qed.

Lemma scatter_split {A} (m : list bool) (v : list A) :
  ∃ rest,
    v ≡ₚ select m v ++ rest ∧
    ∀ vals, length vals = length (select m v) → scatter m v vals ≡ₚ vals ++ rest.
Proof.
  revert v. induction m as [|b m IH]; intros v.
  { exists v. split; [done|]. intros [|] Hl; [done|discriminate]. }
  destruct v as [|x v].
  { exists []. split; [done|]. intros [|] Hl; [done|discriminate]. }
  destruct (IH v) as (rest & Hv & Hs).
  destruct b; simpl.
  - exists rest. split; [by rewrite Hv at 1|].
    intros [|y vals] Hl; [discriminate|]. simpl in Hl.
    simpl. rewrite Hs by lia. done.
  - exists (x :: rest). split.
    + rewrite Hv at 1. by rewrite <- Permutation_middle.
    + intros vals Hl. rewrite Hs by done. by rewrite <- Permutation_middle.
Qed.

Lemma mapM_omap {A B} (f : A → option B) (l : list A) k :
  mapM f l = Some k → omap f l = k.
Proof.
  intros H. apply mapM_Some in H. induction H as [|x y l k Hxy _ IH]; [done|].
  csimpl. rewrite Hxy. simpl. by rewrite IH.
Qed.

Lemma omap_lookup_seq {A} (pre L : list A) :
  omap (λ j, (pre ++ L) !! j) (seq (length pre) (length L)) = L.
Proof.
  revert pre. induction L as [|x L IH]; intros pre; [done|].
  csimpl. rewrite list_lookup_middle by done. simpl. f_equal.
  specialize (IH (pre ++ [x])). rewrite <- app_assoc in IH. simpl in IH.
  rewrite length_app in IH. simpl in IH.
  replace (length pre + 1)%nat with (S (length pre)) in IH by lia. done.
Qed.

Lemma gather_permutation {A} (L : list A) (inds : list nat) r :
  inds ≡ₚ seq 0 (length L) → gather L inds = Ok r → r ≡ₚ L.
Proof.
  intros Hperm Hg. unfold gather in Hg.
  destruct (mapM _ inds) as [r'|] eqn:E; [|discriminate].
  injection Hg as <-. apply mapM_omap in E. rewrite <- E, Hperm.
  pose proof (omap_lookup_seq [] L) as Hall. simpl in Hall. by rewrite Hall.
Qed.

Lemma beyond_true_positions {X} (f : X → bool) (l : list X) n :
  omap (λ p : nat * X, if f p.2 then Some p.1 else None) (zip (seq n (length l)) l)
  = true_positions n (f <$> l).
Proof.
  revert n. induction l as [|x l IH]; intros n; [done|].
  csimpl. destruct (f x); simpl; by rewrite IH.
Qed.

Lemma beyond_eq D phase_D :
  beyond D phase_D
  = true_positions 0 ((λ d, dist_gt d phase_D) <$> (center_dist2 D <$> voxel_indices D)).
Proof.
  unfold beyond. rewrite <- list_fmap_compose.
  apply (beyond_true_positions (λ idx, dist_gt (center_dist2 D idx) phase_D)).
Qed.

Lemma length_true_positions n m : length (true_positions n m) = count_true m.
Proof.
  unfold count_true. revert n. induction m as [|b m IH]; intros n; [done|].
  simpl. rewrite filter_cons. destruct b.
  - rewrite decide_True by done. simpl. by rewrite IH.
  - rewrite decide_False by done. apply IH.
Qed.

Lemma true_positions_ge n m j k :
  true_positions n m !! j = Some k → (n <= k)%nat.
Proof.
  revert n j. induction m as [|b m IH]; intros n j Hk; [done|].
  simpl in Hk. destruct b.
  - destruct j as [|j]; simpl in Hk.
    + injection Hk as <-. lia.
    + apply IH in Hk. lia.
  - apply IH in Hk. lia.
Qed.

Lemma select_true_positions {A} n m (v : list A) j k :
  (length m <= length v)%nat →
  true_positions n m !! j = Some k → select m v !! j = v !! (k - n)%nat.
Proof.
  revert n v j. induction m as [|b m IH]; intros n v j Hlen Hk; [done|].
  destruct v as [|x v]; simpl in Hlen; [lia|].
  simpl in Hk. destruct b.
  - destruct j as [|j]; simpl in Hk.
    + injection Hk as <-. by rewrite Nat.sub_diag.
    + pose proof (true_positions_ge _ _ _ _ Hk) as Hge.
      simpl. rewrite (IH (S n) v j) by (done || lia).
      replace (k - n)%nat with (S (k - S n)) by lia. done.
  - pose proof (true_positions_ge _ _ _ _ Hk) as Hge.
    simpl. rewrite (IH (S n) v j) by (done || lia).
    replace (k - n)%nat with (S (k - S n)) by lia. done.
Qed.

Lemma scatter_true_positions {A} n m (v vals : list A) j k :
  (length m <= length v)%nat → (j < length vals)%nat →
  true_positions n m !! j = Some k → scatter m v vals !! (k - n)%nat = vals !! j.
Proof.
  revert n v vals j. induction m as [|b m IH]; intros n v vals j Hlen Hj Hk; [done|].
  destruct v as [|x v]; simpl in Hlen; [lia|].
  simpl in Hk. destruct b.
  - destruct vals as [|y vals]; simpl in Hj; [lia|].
    destruct j as [|j]; simpl in Hk.
    + injection Hk as <-. by rewrite Nat.sub_diag.
    + pose proof (true_positions_ge _ _ _ _ Hk) as Hge.
      replace (k - n)%nat with (S (k - S n)) by lia. simpl.
      apply IH; (done || lia).
  - pose proof (true_positions_ge _ _ _ _ Hk) as Hge.
    replace (k - n)%nat with (S (k - S n)) by lia. simpl.
    apply IH; (done || lia).
Qed.

Lemma scatter_other {A} n m (v vals : list A) k :
  (n <= k)%nat → k ∉ true_positions n m →
  scatter m v vals !! (k - n)%nat = v !! (k - n)%nat.
Proof.
  revert n v vals. induction m as [|b m IH]; intros n v vals Hge Hk; [done|].
  destruct v as [|x v]; [done|].
  simpl in Hk.
  destruct (decide (k = n)) as [->|Hne].
  - rewrite Nat.sub_diag. destruct b; [|done].
    exfalso. apply Hk. apply elem_of_cons. by left.
  - replace (k - n)%nat with (S (k - S n)) by lia.
    destruct b; simpl.
    + assert (k ∉ true_positions (S n) m) as Hk'.
      { intros Hin. apply Hk. apply elem_of_cons. by right. }
      destruct vals; simpl; apply IH; (done || lia).
    + apply IH; (done || lia).
Qed.

Section CorrectorRuns.
Context {C G : Type} `{!Collaborators C G}.

(** [v[m] = v[m][inds]] for a permutation [inds] of the positions in the
    region: the region is rearranged by [inds] and the rest stays. *)
Lemma permute_region_shuffled (m : list bool) (v : list C) inds :
  (length m <= length v)%nat → inds ≡ₚ seq 0 (count_true m) →
  ∃ s, permute_region m v inds = Ok s ∧
       shuffled_by (true_positions 0 m) inds v s.
Proof.
  intros Hlen Hperm. unfold permute_region, gather.
  destruct (mapM (λ j, select m v !! j) inds) as [vals|] eqn:E.
  2:{ exfalso.
      assert (is_Some (mapM (λ j, select m v !! j) inds)) as [r Hr]; [|congruence].
      apply mapM_is_Some_2. apply Forall_forall. intros j Hj. simpl.
      apply lookup_lt_is_Some. rewrite length_select by done.
      rewrite Hperm in Hj. apply elem_of_seq in Hj. lia. }
  simpl. eexists. split; [done|].
  apply mapM_Some in E.
  pose proof (Forall2_length _ _ _ E) as Hlv.
  pose proof (Permutation_length Hperm) as Hli. rewrite length_seq in Hli.
  split; [apply length_scatter|]. split.
  - intros k Hk.
    pose proof (scatter_other 0 m v vals k ltac:(lia) Hk) as H.
    by rewrite Nat.sub_0_r in H.
  - intros j k Hjk.
    assert (j < length inds)%nat as Hj.
    { apply lookup_lt_Some in Hjk. rewrite length_true_positions in Hjk. lia. }
    destruct (lookup_lt_is_Some_2 inds j Hj) as [j' Hj'].
    assert (j' < count_true m)%nat as Hlt.
    { assert (j' ∈ inds) as Hin by (by eapply list_elem_of_lookup_2).
      rewrite Hperm in Hin. apply elem_of_seq in Hin. lia. }
    destruct (lookup_lt_is_Some_2 (true_positions 0 m) j') as [k' Hk'].
    { by rewrite length_true_positions. }
    exists j', k'. split; [done|]. split; [done|].
    destruct (Forall2_lookup_l _ _ _ _ _ E Hj') as (y & Hy & Hsel).
    pose proof (scatter_true_positions 0 m v vals j k Hlen ltac:(lia) Hjk) as Hs.
    rewrite Nat.sub_0_r in Hs. rewrite Hs, Hy.
    pose proof (select_true_positions 0 m v j' k' Hlen Hk') as Hv.
    rewrite Nat.sub_0_r in Hv. by rewrite <- Hv.
Qed.

(** Lines 197-203 on two transformed volumes of side [D]: the first is
    rearranged by the first shuffle of the index list, the second by the
    shuffle of that shuffled list, both on the voxels beyond [phase_D]. *)
Lemma phase_randomize_shuffled `{!CollaboratorsOk _} D phase_D (v1 v2 : list C)
    (w : world G) :
  length v1 = Z.to_nat (D * D * D) → length v2 = Z.to_nat (D * D * D) →
  ∃ inds1 g1 inds2 g2 s1 s2,
    random_shuffle (seq 0 (length (beyond D phase_D))) (rng w) = (inds1, g1) ∧
    random_shuffle inds1 g1 = (inds2, g2) ∧
    phase_randomize (center_dist2 D <$> voxel_indices D) phase_D v1 v2 w
    = (Ok (s1, s2), World (heap w) g2) ∧
    shuffled_by (beyond D phase_D) inds1 v1 s1 ∧
    shuffled_by (beyond D phase_D) inds2 v2 s2.
Proof.
  intros H1 H2. unfold phase_randomize. cbv zeta.
  rewrite beyond_eq, length_true_positions.
  set (phase_mask := (λ d, dist_gt d phase_D) <$> (center_dist2 D <$> voxel_indices D)).
  assert (length phase_mask = Z.to_nat (D * D * D)) as Hpm.
  { unfold phase_mask. rewrite !length_fmap, length_voxel_indices.
    destruct (Z.le_gt_cases D 0) as [Hle|Hgt]; [|f_equal; lia].
    replace (Z.to_nat D) with 0%nat by lia. simpl.
    assert (D * D * D <= 0) by nia. lia. }
  unfold bind, shuffle, lift, ret.
  pose proof (random_shuffle_perm (seq 0 (count_true phase_mask)) (rng w)) as Hp1.
  destruct (random_shuffle (seq 0 (count_true phase_mask)) (rng w)) as [i1 g1].
  simpl in Hp1.
  destruct (permute_region_shuffled phase_mask v1 i1) as (s1 & -> & Hs1);
    [lia|done|].
  simpl.
  pose proof (random_shuffle_perm i1 g1) as Hp2.
  destruct (random_shuffle i1 g1) as [i2 g2] eqn:E2. simpl in Hp2.
  destruct (permute_region_shuffled phase_mask v2 i2) as (s2 & -> & Hs2);
    [lia|by rewrite Hp2|].
  simpl. exists i1, g1, i2, g2, s1, s2. done.
Qed.

Lemma phase_randomize_errors dists phase_D (v1 v2 : list C) (w : world G) e :
  (phase_randomize dists phase_D v1 v2 w).1 = Err e → e = IndexError.
Proof.
  unfold phase_randomize. cbv zeta. unfold bind, shuffle, lift, ret.
  destruct (random_shuffle _ (rng w)) as [i1 g1].
  unfold permute_region, gather.
  destruct (mapM _ i1); simpl; [|by intros [= <-]].
  destruct (random_shuffle i1 g1) as [i2 g2].
  destruct (mapM _ i2); simpl; [done|by intros [= <-]].
Qed.

(** [correct_fsc], step by step, in terms of the side [D] of the first
    volume. *)
Lemma correct_fsc_unfold fsc_vals vol1 vol2 thr initial_mask (w : world G) :
  let wm := premasked vol1 vol2 initial_mask w in
  let vm := masked vol1 vol2 initial_mask w in
  let D := shape0 (heap w !!! vol1) in
  correct_fsc fsc_vals vol1 vol2 thr initial_mask w
  = if decide (Z.of_nat (length fsc_vals) ≠ D / 2) then (Err fsc_length_error, wm)
    else match get_fftn_dists D with
         | Err e => (Err e, wm)
         | Ok dists =>
             match py_int (f_mul thr (f_of_Z D)) with
             | Err e => (Err e, wm)
             | Ok phase_D =>
                 match phase_randomize dists phase_D
                         (voxels (fftn_center vm.1))
                         (voxels (fftn_center vm.2)) wm with
                 | (Err e, ws) => (Err e, ws)
                 | (Ok vols, ws) =>
                     (rbind (for_each (correct_step dists phase_D vols.1 vols.2)
                               (replicate (Z.to_nat (D * D * D)) false,
                                df_fsc fsc_vals) (arange 1 (D / 2)))
                            (λ st, mk_DataFrame (pixres_axis D) st.2), ws)
                 end
             end
         end.
Proof.
  intros wm vm D. subst wm vm D. unfold correct_fsc.
  rewrite (bind_premask vol1 vol2 initial_mask).
  unfold bind at 1. rewrite deref_rebound_1. cbv beta iota zeta.
  rewrite (masked_shape_1 vol1 vol2 initial_mask w).
  destruct (decide _); [done|].
  unfold bind at 1. unfold lift at 1.
  destruct (get_fftn_dists _) as [dists|e]; [|done].
  unfold bind at 1. rewrite deref_rebound_2. cbv beta iota zeta.
  change (shape0 (fftn_center (masked vol1 vol2 initial_mask w).1))
    with (shape0 (masked vol1 vol2 initial_mask w).1).
  rewrite (masked_shape_1 vol1 vol2 initial_mask w).
  unfold bind at 1. unfold lift at 1.
  destruct (py_int _) as [phase_D|e]; [|done].
  unfold bind at 1.
  destruct (phase_randomize _ _ _ _ _) as [[vols|e] ws]; [|done].
  unfold bind, lift.
  destruct (for_each _ _ _) as [st|e]; done.
Qed.

(** C8. [correct_fsc] raises its length error if and only if the length of
    the given curve differs from [D // 2], where [D] is the side of the first
    volume; with the right length, whatever else happens, that error is not
    raised. *)
Theorem correct_fsc_length_error_iff fsc_vals vol1 vol2 randomization_threshold
    initial_mask (w : world G) :
  (correct_fsc fsc_vals vol1 vol2 randomization_threshold initial_mask w).1
  = Err fsc_length_error
  ↔ Z.of_nat (length fsc_vals) ≠ shape0 (heap w !!! vol1) / 2.
Proof.
  rewrite correct_fsc_unfold. cbv zeta.
  set (D := shape0 (heap w !!! vol1)).
  destruct (decide (Z.of_nat (length fsc_vals) ≠ D / 2)) as [Hne|Heq].
  { simpl. done. }
  split; [|done]. intros Herr. exfalso. revert Herr.
  destruct (get_fftn_dists D) as [dists|e] eqn:Ed; simpl.
  2:{ apply get_fftn_dists_errors in Ed as [->| ->]; discriminate. }
  destruct (py_int _) as [phase_D|e] eqn:Ep; simpl.
  2:{ unfold py_int in Ep. destruct (f_mul _ _); [|done].
      injection Ep as <-. discriminate. }
  destruct (phase_randomize _ _ _ _ _) as [[[s1 s2]|e] ws] eqn:Er; simpl.
  2:{ eapply (f_equal fst) in Er. simpl in Er.
      apply phase_randomize_errors in Er as ->. discriminate. }
  destruct (for_each _ _ _) as [[mask' fsc']|e] eqn:El; simpl.
  2:{ apply correct_loop_errors in El as [->| ->]; discriminate. }
  unfold mk_DataFrame. destruct (decide _); simpl; discriminate.
Qed.

(** The value of [correct_fsc] once the phase-randomized coefficients are
    known. *)
Lemma correct_fsc_eq fsc_vals vol1 vol2 thr initial_mask (w : world G)
    D phase_D s1 s2 ws :
  let wm := premasked vol1 vol2 initial_mask w in
  let vm := masked vol1 vol2 initial_mask w in
  shape0 (heap w !!! vol1) = D → 0 < D → D mod 2 = 0 →
  Z.of_nat (length fsc_vals) = D / 2 →
  py_int (f_mul thr (f_of_Z D)) = Ok phase_D →
  phase_randomize (center_dist2 D <$> voxel_indices D) phase_D
    (voxels (fftn_center vm.1))
    (voxels (fftn_center vm.2)) wm = (Ok (s1, s2), ws) →
  ∃ out,
    correct_fsc fsc_vals vol1 vol2 thr initial_mask w = (Ok out, ws) ∧
    length out = length fsc_vals ∧
    df_pixres out = pixres_axis D ∧
    ∀ i x, 0 <= i < D / 2 → df_fsc fsc_vals !! Z.to_nat i = Some x →
      df_fsc out !! Z.to_nat i = Some (corrected_entry D phase_D s1 s2 i x).
Proof.
  intros wm vm HD Hpos Heven Hlen Hint Hrand.
  rewrite correct_fsc_unfold. cbv zeta. fold wm vm. rewrite HD.
  rewrite decide_False by lia.
  rewrite get_fftn_dists_even by done.
  rewrite Hint, Hrand. cbv beta iota. simpl fst. simpl snd.
  assert (1 <= D / 2) as Hhalf by (pose proof (Z.div_mod D 2); lia).
  replace (replicate (Z.to_nat (D * D * D)) false)
    with (lt_mask (center_dist2 D <$> voxel_indices D) (1 - 1)).
  2:{ simpl. rewrite lt_mask_zero, length_fmap, length_voxel_indices.
      f_equal. lia. }
  destruct (correct_loop (center_dist2 D <$> voxel_indices D) phase_D s1 s2
              (Z.to_nat (D / 2 - 1)) 1 (df_fsc fsc_vals))
    as (fsc' & Hrun & Hlen' & Hval).
  { lia. }
  { unfold df_fsc. rewrite length_fmap. lia. }
  replace (1 + Z.of_nat (Z.to_nat (D / 2 - 1))) with (D / 2) in Hrun, Hval by lia.
  rewrite Hrun. simpl.
  assert (length (pixres_axis D) = length fsc') as Hpl.
  { rewrite length_pixres_axis, Hlen'. unfold df_fsc. rewrite length_fmap. lia. }
  unfold mk_DataFrame. rewrite decide_True by done.
  eexists. split; [done|].
  assert (df_fsc (zip (pixres_axis D) fsc') = fsc') as ->
    by (unfold df_fsc; apply snd_zip; lia).
  assert (df_pixres (zip (pixres_axis D) fsc') = pixres_axis D) as ->
    by (unfold df_pixres; apply fst_zip; lia).
  split.
  { rewrite length_zip_with, <- Hpl, length_pixres_axis. lia. }
  split; [done|].
  intros i x Hi Hx. rewrite (Hval _ _ Hx). f_equal.
  unfold corrected_entry. rewrite Z2Nat.id by lia.
  destruct (decide (i <= phase_D ∨ i = 0)).
  - rewrite decide_False by lia. done.
  - rewrite decide_True by lia. by rewrite shell_of_ring.
Qed.

(** C5. For a curve of length [D/2], [correct_fsc] returns a curve of the
    same length in which every entry with index [i <= phase_D] (and the DC
    entry) is the given value, and every shell [i > phase_D] holds
    [clip((fsc_raw - p_random) / (1 - p_random), 0, 1)], with [p_random] the
    correlation on shell [i] of the phase-randomized coefficients, except that
    [p_random == 1.0] gives 0.0 and a NaN [p_random] keeps the given value.
    The phase-randomized coefficients [s1] and [s2] are the transforms of the
    two (masked) volumes in which the voxels beyond [phase_D] have been
    rearranged: those of the first volume by the shuffle of the index list,
    those of the second by the shuffle of that shuffled list; every other
    coefficient is in its place. *)
Theorem correct_fsc_shells `{!CollaboratorsOk _} fsc_vals vol1 vol2
    randomization_threshold initial_mask (w : world G) D phase_D :
  let wm := premasked vol1 vol2 initial_mask w in
  let vm := masked vol1 vol2 initial_mask w in
  cubic D vm.1 → cubic D vm.2 →
  0 < D → D mod 2 = 0 →
  Z.of_nat (length fsc_vals) = D / 2 →
  py_int (f_mul randomization_threshold (f_of_Z D)) = Ok phase_D →
  ∃ inds1 g1 inds2 g2 s1 s2 out,
    random_shuffle (seq 0 (length (beyond D phase_D))) (rng w) = (inds1, g1) ∧
    random_shuffle inds1 g1 = (inds2, g2) ∧
    shuffled_by (beyond D phase_D) inds1 (voxels (fftn_center vm.1)) s1 ∧
    shuffled_by (beyond D phase_D) inds2 (voxels (fftn_center vm.2)) s2 ∧
    correct_fsc fsc_vals vol1 vol2 randomization_threshold initial_mask w
    = (Ok out, World (heap wm) g2) ∧
    length out = length fsc_vals ∧
    ∀ i fsc_raw, 0 <= i < D / 2 →
      df_fsc fsc_vals !! Z.to_nat i = Some fsc_raw →
      df_fsc out !! Z.to_nat i
      = Some (if decide (i <= phase_D ∨ i = 0) then fsc_raw
              else corrected_value fsc_raw
                     (shell_corr (ring_coeffs D i s1) (ring_coeffs D i s2))).
Proof.
  intros wm vm [Hs1 Hl1] [Hs2 Hl2] Hpos Heven Hlen Hint.
  destruct (phase_randomize_shuffled D phase_D
              (voxels (fftn_center vm.1)) (voxels (fftn_center vm.2)) wm)
    as (inds1 & g1 & inds2 & g2 & s1 & s2 & Hsh1 & Hsh2 & Hrand & Hby1 & Hby2).
  { simpl. by rewrite fft_voxels_length. }
  { simpl. by rewrite fft_voxels_length. }
  assert (rng wm = rng w) as Hrng by apply premasked_rng.
  rewrite Hrng in Hsh1.
  assert (shape0 (heap w !!! vol1) = D) as HD.
  { rewrite <- Hs1. unfold vm. by rewrite masked_shape_1. }
  destruct (correct_fsc_eq fsc_vals vol1 vol2 randomization_threshold
              initial_mask w D phase_D s1 s2 _ HD Hpos Heven Hlen Hint Hrand)
    as (out & Hrun & Hlo & _ & Hval).
  exists inds1, g1, inds2, g2, s1, s2, out. repeat split; try done.
  - apply Hby1.
  - apply Hby1.
  - apply Hby1.
  - apply Hby2.
  - apply Hby2.
  - apply Hby2.
Qed.

End CorrectorRuns.

(** The toy collaborators keep the number of voxels and permute. *)
Lemma toy_ok : CollaboratorsOk toy.
Proof.
  split.
  - intros D v. simpl. by rewrite length_fmap.
  - intros l g. simpl. apply reverse_Permutation.
Qed.

(** The statement of C5 on the two volumes of side 6, with the randomization
    threshold 1/4, so that [phase_D = 1]: shell 2 is corrected, and the voxels
    of that shell at the squared distances 2 and 3 are among the rearranged
    ones. *)
Lemma correct_fsc_shells_witness :
  ∃ inds1 g1 inds2 g2 s1 s2 out,
    random_shuffle (seq 0 (length (beyond 6 1))) (rng toy_world6) = (inds1, g1) ∧
    random_shuffle inds1 g1 = (inds2, g2) ∧
    shuffled_by (beyond 6 1) inds1
      (voxels (fftn_center (masked 1%nat 2%nat None toy_world6).1)) s1 ∧
    shuffled_by (beyond 6 1) inds2
      (voxels (fftn_center (masked 1%nat 2%nat None toy_world6).2)) s2 ∧
    correct_fsc toy_curve6 1%nat 2%nat (Fin (1 # 4)) None toy_world6
    = (Ok out, World (heap (premasked 1%nat 2%nat None toy_world6)) g2) ∧
    length out = length toy_curve6 ∧
    ∀ i fsc_raw, 0 <= i < 6 / 2 →
      df_fsc toy_curve6 !! Z.to_nat i = Some fsc_raw →
      df_fsc out !! Z.to_nat i
      = Some (if decide (i <= 1 ∨ i = 0) then fsc_raw
              else corrected_value fsc_raw
                     (shell_corr (ring_coeffs 6 i s1) (ring_coeffs 6 i s2))).
Proof.
  apply (correct_fsc_shells (Collaborators0 := toy) (CollaboratorsOk0 := toy_ok)
           toy_curve6 1%nat 2%nat (Fin (1 # 4)) None toy_world6 6 1).
  - split; reflexivity.
  - split; reflexivity.
  - lia.
  - reflexivity.
  - reflexivity.
  - reflexivity.
Defined.

(** ** The multi-mask orchestrator *)

Lemma dict_get_set_eq {V} (d : list (string * V)) k v :
  dict_get (dict_set d k v) k = Ok v.
Proof.
  induction d as [|[k' v'] d IH]; simpl.
  - by rewrite String.eqb_refl.
  - destruct (String.eqb k' k) eqn:E; simpl; rewrite E; done.
Qed.

Lemma dict_get_set_ne {V} (d : list (string * V)) k k' v :
  k ≠ k' → dict_get (dict_set d k v) k' = dict_get d k'.
Proof.
  intros Hne. induction d as [|[k0 v0] d IH]; simpl.
  - destruct (String.eqb k k') eqn:E; [|done].
    apply String.eqb_eq in E. done.
  - destruct (String.eqb k0 k) eqn:E; simpl.
    + apply String.eqb_eq in E as ->.
      destruct (String.eqb k k') eqn:E'; [|done].
      apply String.eqb_eq in E'. done.
    + destruct (String.eqb k0 k'); [done|apply IH].
Qed.

Lemma fsc_angs_undefined Apix_ (ft : list (string * option float64)) :
  existsb (λ kv, negb (bool_decide (is_Some kv.2))) ft = true →
  fsc_angs Apix_ ft
  = Err (TypeError "unsupported operand type(s) for /: 'int' and 'NoneType'").
Proof.
  induction ft as [|[lbl [thr|]] ft IH]; simpl; [done| |done].
  intros H. by rewrite IH.
Qed.

Lemma fsc_angs_defined Apix_ (ft : list (string * option float64)) :
  existsb (λ kv, negb (bool_decide (is_Some kv.2))) ft = false →
  ∃ angs, fsc_angs Apix_ ft = Ok angs.
Proof.
  induction ft as [|[lbl [thr|]] ft IH]; simpl; [by eexists|  |done].
  intros H. destruct (IH H) as [angs ->]. by eexists.
Qed.

Section Orchestrator.
Context {C G : Type} `{!Collaborators C G}.

(** Whatever it returns, [calculate_fsc] leaves the world as the two
    products with the mask make it. *)
Lemma calculate_fsc_world vol1 vol2 initial_mask out_file (w : world G) :
  (calculate_fsc vol1 vol2 initial_mask out_file w).2
  = premasked vol1 vol2 initial_mask w.
Proof.
  rewrite calculate_fsc_unfold. cbv zeta.
  destruct (get_fftn_dists _); simpl; done.
Qed.

(** The masks built by the orchestrator, in order. *)
Lemma cryosparc_masks_inv full_vol sphere_mask loose_mask tight_mask Apix
    (w w0 : world G) masks :
  cryosparc_masks full_vol sphere_mask loose_mask tight_mask Apix w
  = (Ok masks, w0) →
  w0 = w ∧
  ∃ sphere loose tight,
    masks = [("No Mask", None); ("Spherical", Some sphere);
             ("Loose", Some loose); ("Tight", Some tight)] ∧
    sphere = match sphere_mask with
             | None => spherical_window_mask (shape0 (heap w !!! full_vol))
             | Some m => m
             end ∧
    loose = cosine_dilation_mask (heap w !!! full_vol) loose_mask.1 loose_mask.2 Apix ∧
    tight = match tight_mask with
            | TightTuple dilation edge_dist =>
                cosine_dilation_mask (heap w !!! full_vol) dilation edge_dist Apix
            | TightArray m => m
            | TightOther _ => tight
            end.
Proof.
  unfold cryosparc_masks, bind, read, ret, raise. simpl.
  destruct tight_mask; simpl; intros [= <- <-]; (split; [done|]);
    eexists _, _, _; repeat split.
Qed.

(** The four curves come from four calls on the same two locations, each
    running in the world left by the previous one. *)
Lemma for_items_four half_vol1 half_vol2 sphere loose tight
    (w0 w1 : world G) fsc_vals :
  for_items (λ mask, calculate_fsc half_vol1 half_vol2 mask None)
    [("No Mask", None); ("Spherical", Some sphere);
     ("Loose", Some loose); ("Tight", Some tight)] w0 = (Ok fsc_vals, w1) →
  let ws := premasked half_vol1 half_vol2 (Some sphere) w0 in
  let wl := premasked half_vol1 half_vol2 (Some loose) ws in
  let wt := premasked half_vol1 half_vol2 (Some tight) wl in
  ∃ d_none d_sphere d_loose d_tight,
    fsc_vals = [("No Mask", d_none); ("Spherical", d_sphere);
                ("Loose", d_loose); ("Tight", d_tight)] ∧
    calculate_fsc half_vol1 half_vol2 None None w0 = (Ok d_none, w0) ∧
    calculate_fsc half_vol1 half_vol2 (Some sphere) None w0 = (Ok d_sphere, ws) ∧
    calculate_fsc half_vol1 half_vol2 (Some loose) None ws = (Ok d_loose, wl) ∧
    calculate_fsc half_vol1 half_vol2 (Some tight) None wl = (Ok d_tight, wt) ∧
    w1 = wt.
Proof.
  intros H ws wl wt. simpl in H. unfold bind, ret in H.
  pose proof (calculate_fsc_world half_vol1 half_vol2 None None w0) as H0.
  destruct (calculate_fsc half_vol1 half_vol2 None None w0) as [[d0|e] wa];
    [|discriminate].
  simpl in H0. rewrite premasked_None in H0. subst wa.
  pose proof (calculate_fsc_world half_vol1 half_vol2 (Some sphere) None w0) as H1.
  destruct (calculate_fsc half_vol1 half_vol2 (Some sphere) None w0) as [[d1|e] wb];
    [|discriminate].
  simpl in H1. fold ws in H1. subst wb.
  pose proof (calculate_fsc_world half_vol1 half_vol2 (Some loose) None ws) as H2.
  destruct (calculate_fsc half_vol1 half_vol2 (Some loose) None ws) as [[d2|e] wc];
    [|discriminate].
  simpl in H2. fold wl in H2. subst wc.
  pose proof (calculate_fsc_world half_vol1 half_vol2 (Some tight) None wl) as H3.
  destruct (calculate_fsc half_vol1 half_vol2 (Some tight) None wl) as [[d3|e] wd];
    [|discriminate].
  simpl in H3. fold wt in H3. subst wd.
  injection H as <- <-. exists d0, d1, d2, d3. done.
Qed.

Lemma dict_get_thresholds (fsc_vals : list (string * DataFrame)) Apix_ k :
  dict_get ((λ '(mask_lbl, fsc_df),
               (mask_lbl, (get_fsc_thresholds fsc_df Apix_ false).2)) <$> fsc_vals) k
  = rbind (dict_get fsc_vals k)
          (λ fsc_df, Ok (get_fsc_thresholds fsc_df Apix_ false).2).
Proof.
  induction fsc_vals as [|[k' df] d IH]; csimpl; [done|].
  destruct (String.eqb k' k); [done|apply IH].
Qed.

(** Lines 267-285, once the four curves are there. *)
Lemma cryosparc_curves_eq half_vol1 half_vol2 masks Apix_ (w0 w1 : world G)
    fsc_vals tight tight_vals :
  for_items (λ mask, calculate_fsc half_vol1 half_vol2 mask None) masks w0
  = (Ok fsc_vals, w1) →
  dict_get masks "Tight" = Ok tight →
  dict_get fsc_vals "Tight" = Ok tight_vals →
  let fsc_thresh :=
    (λ '(mask_lbl, fsc_df), (mask_lbl, (get_fsc_thresholds fsc_df Apix_ false).2))
      <$> fsc_vals in
  cryosparc_curves half_vol1 half_vol2 masks Apix_ w0
  = match (get_fsc_thresholds tight_vals Apix_ false).2 with
    | Some thr =>
        match correct_fsc tight_vals half_vol1 half_vol2 (f_mul f_075 thr) tight w1 with
        | (Ok corrected, w2) =>
            (Ok (dict_set fsc_vals "Corrected" corrected,
                 dict_set fsc_thresh "Corrected"
                          (get_fsc_thresholds corrected Apix_ false).2), w2)
        | (Err e, w2) => (Err e, w2)
        end
    | None =>
        (Ok (dict_set fsc_vals "Corrected" tight_vals,
             dict_set fsc_thresh "Corrected" None), w1)
    end.
Proof.
  intros Hitems Hm Hv fsc_thresh.
  unfold cryosparc_curves. unfold bind at 1. rewrite Hitems.
  fold fsc_thresh. unfold bind at 1. unfold lift at 1.
  unfold fsc_thresh at 1. rewrite dict_get_thresholds, Hv. simpl rbind. cbv iota.
  unfold bind at 1. unfold lift at 1. cbv beta iota.
  change (get_fsc_thresholds tight_vals Apix_ false).2
    with (threshold_at cutoff_143 tight_vals).
  destruct (threshold_at cutoff_143 tight_vals) as [thr|]; [|done].
  unfold bind at 1. unfold lift at 1. rewrite Hm.
  unfold bind, ret.
  destruct (correct_fsc _ _ _ _ _ _) as [[corrected|e] w2]; done.
Qed.

(** A run of the orchestrator that returns a table went through the three
    stages, and the columns of the table are the correlations of the curves,
    label by label. *)
Lemma calculate_cryosparc_fscs_inv full_vol half_vol1 half_vol2 sphere_mask
    loose_mask tight_mask Apix_ out_file plot_file (w w' : world G) tbl :
  calculate_cryosparc_fscs full_vol half_vol1 half_vol2 sphere_mask loose_mask
    tight_mask Apix_ out_file plot_file w = (Ok tbl, w') →
  ∃ masks fv ft,
    cryosparc_masks full_vol sphere_mask loose_mask tight_mask Apix_ w
    = (Ok masks, w) ∧
    cryosparc_curves half_vol1 half_vol2 masks Apix_ w = (Ok (fv, ft), w') ∧
    tbl_columns tbl = (λ kv, (kv.1, df_fsc kv.2)) <$> fv.
Proof.
  unfold calculate_cryosparc_fscs. unfold bind at 1.
  destruct (cryosparc_masks _ _ _ _ _ w) as [[masks|e] w0] eqn:Em; [|done].
  pose proof Em as Hinv. apply cryosparc_masks_inv in Hinv as [-> _].
  unfold bind at 1.
  destruct (cryosparc_curves _ _ _ _ w) as [[[fv ft]|e] w1] eqn:Ec; [|done].
  intros Hrun. exists masks, fv, ft.
  assert (∀ (k : M G FscTable) (m : M G ()),
            (∀ w, (m w).2 = w) →
            bind m (λ _, k) w1 = (Ok tbl, w') →
            k w1 = (Ok tbl, w')) as Hskip.
  { intros k m Hm. unfold bind. specialize (Hm w1).
    destruct (m w1) as [[[]|e] w2]; simpl in Hm; subst; done. }
  apply Hskip in Hrun.
  2:{ intros w2. destruct plot_file; [|done]. unfold bind, lift, ret.
      destruct (fsc_angs Apix_ ft); done. }
  destruct (pixres_set fv) as [|pixres_index [|]]; try done.
  unfold ret in Hrun. by injection Hrun as <- <-.
Qed.

(** The end of the orchestrator, once the masks and the curves are there. *)
Lemma cryosparc_fscs_unfold full_vol half_vol1 half_vol2 sphere_mask loose_mask
    tight_mask Apix_ out_file plot_file (w w' : world G) masks fv ft :
  cryosparc_masks full_vol sphere_mask loose_mask tight_mask Apix_ w
  = (Ok masks, w) →
  cryosparc_curves half_vol1 half_vol2 masks Apix_ w = (Ok (fv, ft), w') →
  calculate_cryosparc_fscs full_vol half_vol1 half_vol2 sphere_mask loose_mask
    tight_mask Apix_ out_file plot_file w
  = match match plot_file with
          | Some _ => rbind (fsc_angs Apix_ ft) (λ _, Ok ())
          | None => Ok ()
          end with
    | Err e => (Err e, w')
    | Ok _ =>
        match pixres_set fv with
        | [pixres_index] =>
            (Ok {| tbl_index := pixres_index;
                   tbl_columns := (λ kv, (kv.1, df_fsc kv.2)) <$> fv |}, w')
        | _ => (Err AssertionError, w')
        end
    end.
Proof.
  intros Hmasks Hcurves.
  unfold calculate_cryosparc_fscs. unfold bind at 1. rewrite Hmasks.
  unfold bind at 1. rewrite Hcurves. unfold bind at 1.
  destruct plot_file as [p|].
  - unfold bind, lift, ret, raise. destruct (fsc_angs Apix_ ft); simpl; [|done].
    by destruct (pixres_set fv) as [|idx [|]].
  - unfold ret, raise. simpl. by destruct (pixres_set fv) as [|idx [|]].
Qed.

(** C6. In every run of the orchestrator that returns its table, the Tight
    curve is the result of [calculate_fsc] with the Tight mask, called in the
    world the three earlier calls left.  When the 0.143 threshold of that
    curve is defined, the Corrected curve is the result of [correct_fsc]
    applied to the Tight curve with the randomization threshold 0.75 times
    that threshold and the Tight mask, and its 0.143 threshold is computed
    from it.  Otherwise the Corrected curve is the Tight curve, the
    Corrected 0.143 threshold is undefined as the Tight one is, and no plot
    was asked for (the labels of a plot divide by the thresholds).  The
    columns of the table are the correlations of these curves. *)
Theorem cryosparc_fscs_corrected full_vol half_vol1 half_vol2 sphere_mask
    loose_mask tight_mask Apix_ out_file plot_file (w w' : world G) tbl :
  calculate_cryosparc_fscs full_vol half_vol1 half_vol2 sphere_mask loose_mask
    tight_mask Apix_ out_file plot_file w = (Ok tbl, w') →
  let fv := heap w !!! full_vol in
  let sphere :=
    match sphere_mask with
    | None => spherical_window_mask (shape0 fv)
    | Some m => m
    end in
  let loose := cosine_dilation_mask fv loose_mask.1 loose_mask.2 Apix_ in
  let wl := premasked half_vol1 half_vol2 (Some loose)
              (premasked half_vol1 half_vol2 (Some sphere) w) in
  ∃ tight tight_vals wt fsc_vals fsc_thresh,
    match tight_mask with
    | TightTuple dilation edge_dist =>
        tight = cosine_dilation_mask fv dilation edge_dist Apix_
    | TightArray m => tight = m
    | TightOther _ => False
    end ∧
    calculate_fsc half_vol1 half_vol2 (Some tight) None wl = (Ok tight_vals, wt) ∧
    cryosparc_curves half_vol1 half_vol2
      [("No Mask", None); ("Spherical", Some sphere);
       ("Loose", Some loose); ("Tight", Some tight)] Apix_ w
    = (Ok (fsc_vals, fsc_thresh), w') ∧
    tbl_columns tbl = (λ kv, (kv.1, df_fsc kv.2)) <$> fsc_vals ∧
    dict_get fsc_vals "Tight" = Ok tight_vals ∧
    match (get_fsc_thresholds tight_vals Apix_ false).2 with
    | Some thr =>
        ∃ corrected,
          correct_fsc tight_vals half_vol1 half_vol2 (f_mul f_075 thr)
            (Some tight) wt = (Ok corrected, w') ∧
          dict_get fsc_vals "Corrected" = Ok corrected ∧
          dict_get fsc_thresh "Tight" = Ok (Some thr) ∧
          dict_get fsc_thresh "Corrected"
          = Ok (get_fsc_thresholds corrected Apix_ false).2
    | None =>
        w' = wt ∧
        dict_get fsc_vals "Corrected" = Ok tight_vals ∧
        dict_get fsc_thresh "Tight" = Ok None ∧
        dict_get fsc_thresh "Corrected" = Ok None ∧
        plot_file = None
    end.
Proof.
  intros Hrun fv sphere loose wl.
  pose proof Hrun as Hinv.
  apply calculate_cryosparc_fscs_inv in Hinv
    as (masks & fsc_vals & fsc_thresh & Hmasks & Hcurves & Hcols).
  pose proof Hmasks as Hm.
  apply cryosparc_masks_inv in Hm as (_ & sphere' & loose' & tight & Hmk & Hs & Hl & Ht).
  fold fv in Hs, Hl, Ht. fold sphere in Hs. fold loose in Hl.
  subst sphere' loose' masks.
  pose proof Hcurves as Hc. unfold cryosparc_curves in Hc. unfold bind at 1 in Hc.
  destruct (for_items _ _ w) as [[four|e] w1] eqn:Hitems; [|discriminate].
  clear Hc.
  pose proof Hitems as Hfour.
  apply for_items_four in Hfour as (d0 & d1 & d2 & d3 & -> & _ & _ & _ & H3 & ->).
  fold wl in H3.
  pose proof Hcurves as Heq.
  rewrite (cryosparc_curves_eq _ _ _ _ _ _ _ (Some tight) d3 Hitems eq_refl eq_refl)
    in Heq.
  exists tight, d3, (premasked half_vol1 half_vol2 (Some tight) wl), fsc_vals, fsc_thresh.
  split.
  { destruct tight_mask as [dilation edge_dist|m|name]; [done|done|].
    unfold cryosparc_masks, bind, read, raise in Hmasks. discriminate. }
  split; [done|]. split; [done|]. split; [done|].
  change (get_fsc_thresholds d3 Apix_ false).2 with (threshold_at cutoff_143 d3) in *.
  destruct (threshold_at cutoff_143 d3) as [thr|] eqn:Ethr.
  - destruct (correct_fsc d3 half_vol1 half_vol2 (f_mul f_075 thr) (Some tight) _)
      as [[corrected|e] w2]; [|discriminate].
    injection Heq as <- <- <-.
    split; [done|]. exists corrected. split; [done|]. split; [done|].
    simpl. rewrite Ethr. done.
  - injection Heq as <- <- <-.
    split; [done|]. split; [done|]. split; [done|].
    split; [simpl; by rewrite Ethr|]. split; [done|].
    destruct plot_file as [p|]; [exfalso|done].
    rewrite (cryosparc_fscs_unfold _ _ _ _ _ _ _ _ _ _ _ _ _ _ Hmasks Hcurves) in Hrun.
    rewrite fsc_angs_undefined in Hrun; [discriminate|].
    apply existsb_exists. exists ("Corrected", None). split; [|done].
    simpl. tauto.
Qed.

End Orchestrator.

(** The statement of C6 on the toy run: the table is returned, the Tight
    threshold is defined there and the correction goes through. *)
Lemma cryosparc_fscs_corrected_witness :
  ∃ tight tight_vals wt fsc_vals fsc_thresh,
    tight = cosine_dilation_mask (heap toy_world !!! 0%nat) 6 6 f_one ∧
    calculate_fsc 1%nat 2%nat (Some tight) None
      (premasked 1%nat 2%nat
         (Some (cosine_dilation_mask (heap toy_world !!! 0%nat) (25, 15).1
                  (25, 15).2 f_one))
         (premasked 1%nat 2%nat
            (Some (spherical_window_mask (shape0 (heap toy_world !!! 0%nat))))
            toy_world))
    = (Ok tight_vals, wt) ∧
    cryosparc_curves 1%nat 2%nat
      [("No Mask", None);
       ("Spherical",
        Some (spherical_window_mask (shape0 (heap toy_world !!! 0%nat))));
       ("Loose",
        Some (cosine_dilation_mask (heap toy_world !!! 0%nat) (25, 15).1
                (25, 15).2 f_one));
       ("Tight", Some tight)] f_one toy_world
    = (Ok (fsc_vals, fsc_thresh), toy_table.2) ∧
    tbl_columns toy_table.1 = (λ kv, (kv.1, df_fsc kv.2)) <$> fsc_vals ∧
    dict_get fsc_vals "Tight" = Ok tight_vals ∧
    match (get_fsc_thresholds tight_vals f_one false).2 with
    | Some thr =>
        ∃ corrected,
          correct_fsc tight_vals 1%nat 2%nat (f_mul f_075 thr)
            (Some tight) wt = (Ok corrected, toy_table.2) ∧
          dict_get fsc_vals "Corrected" = Ok corrected ∧
          dict_get fsc_thresh "Tight" = Ok (Some thr) ∧
          dict_get fsc_thresh "Corrected"
          = Ok (get_fsc_thresholds corrected f_one false).2
    | None =>
        toy_table.2 = wt ∧
        dict_get fsc_vals "Corrected" = Ok tight_vals ∧
        dict_get fsc_thresh "Tight" = Ok None ∧
        dict_get fsc_thresh "Corrected" = Ok None ∧
        @None string = None
    end.
Proof.
  apply (cryosparc_fscs_corrected (Collaborators0 := toy) 0%nat 1%nat 2%nat None
           (25, 15) (TightTuple 6 6) f_one None None toy_world toy_table.2
           toy_table.1).
  vm_compute. reflexivity.
Defined.

(** ** The command line *)

Lemma main_apix_errors args volumes e :
  main_apix args volumes = Err e → e = apix_differ_error.
Proof.
  unfold main_apix.
  assert (∀ l : list float64,
            match l with
            | [] => Ok f_one
            | [a] => Ok a
            | _ :: _ :: _ => Err apix_differ_error
            end = Err e → e = apix_differ_error) as Haux.
  { intros [|a [|b l]]; try discriminate. by intros [= <-]. }
  destruct (args_Apix args) as [a|]; [destruct (f_truthy a)|]; try apply Haux.
  discriminate.
Qed.

Lemma main_corrected_errors corrected apix_ e :
  main_corrected corrected apix_ = Err e → e = ZeroDivisionError.
Proof.
  unfold main_corrected. destruct corrected as [c|]; [|done].
  destruct (f_ge c f_one); [|done].
  unfold py_div. destruct (f_eq apix_ f_zero); simpl; [by intros [= <-]|].
  destruct (f_eq _ f_zero); simpl; [by intros [= <-]|done].
Qed.

Lemma omap_apix_none (volumes : list ImageSource) :
  (∀ vol, vol ∈ volumes → apix vol = None) → omap apix volumes = [].
Proof.
  induction volumes as [|vol volumes IH]; intros H; [done|].
  csimpl. rewrite (H vol) by (apply elem_of_cons; by left).
  apply IH. intros v Hv. apply H. apply elem_of_cons. by right.
Qed.

Section Main.
Context {C G : Type} `{!Collaborators C G}.

(** The call [calculate_fsc(vol1, vol2, mask, corrected, out_file=...)] of
    line 357 gives [out_file] twice, whatever the values are. *)
Lemma call_two_volumes_raises vol1 vol2 mask corrected outtxt (w : world G) :
  call_calculate_fsc [VTensor vol1; VTensor vol2; mask; corrected]
                     [("out_file", outtxt)] w
  = (Err (TypeError "got multiple values for argument 'out_file'"), w).
Proof. reflexivity. Qed.

(** C2 (as the code behaves). Every invocation of [main] with exactly two
    volume files raises: when the pixel size is settled and [--corrected]
    converted, the call of [calculate_fsc] passes [out_file] both as fourth
    positional argument and as keyword, which is a [TypeError]; no curve is
    produced and the world is left as it was. *)
Theorem main_two_volumes_raises path1 path2 mask corrected plot Apix outtxt
    (w : world G) :
  ∃ e,
    main {| args_volumes := [path1; path2]; args_mask := mask;
            args_corrected := corrected; args_plot := plot;
            args_Apix := Apix; args_outtxt := outtxt |} w = (Err e, w) ∧
    (e = apix_differ_error ∨ e = ZeroDivisionError ∨
     e = TypeError "got multiple values for argument 'out_file'").
Proof.
  unfold main. simpl. unfold bind at 1. unfold lift at 1.
  destruct (main_apix _ _) as [a|e] eqn:Ea.
  2:{ exists e. split; [done|]. left. by eapply main_apix_errors. }
  unfold main_two. simpl. unfold bind at 1. unfold lift at 1.
  destruct (main_corrected corrected a) as [corrected'|e] eqn:Ec.
  2:{ exists e. split; [reflexivity|]. right; left.
      by eapply main_corrected_errors. }
  eexists. split; [reflexivity|]. right; by right.
Qed.

(** C9 (amended). An invocation of [main] with [--corrected] and exactly
    three volume files raises before any FSC or mask computation, leaving the
    world untouched: the input-conflict error when the pixel size is settled,
    and the error about differing pixel sizes otherwise. *)
Theorem main_three_corrected_raises args c (w : world G) :
  length (args_volumes args) = 3%nat →
  args_corrected args = Some c →
  main args w
  = (Err (match main_apix args (ImageSource_from_file <$> args_volumes args) with
          | Ok _ => corrected_conflict_error
          | Err _ => apix_differ_error
          end), w).
Proof.
  intros Hlen Hc. unfold main. rewrite Hlen. simpl.
  unfold bind, lift.
  destruct (main_apix _ _) as [a|e] eqn:Ea.
  - unfold main_three. rewrite Hc. done.
  - apply main_apix_errors in Ea as ->. done.
Qed.

(** C10. When [--Apix] is absent or zero and no loaded volume carries a pixel
    size, the pixel size is exactly 1.0: it is the value [main] hands to the
    threshold report (two volumes) and to the orchestrator, hence to the mask
    construction (three volumes). *)
Theorem main_apix_default args :
  match args_Apix args with
  | Some a => f_truthy a = false
  | None => True
  end →
  (∀ path, path ∈ args_volumes args → apix (ImageSource_from_file path) = None) →
  let volumes := ImageSource_from_file <$> args_volumes args in
  let mask := parse_mrc <$> args_mask args in
  main_apix args volumes = Ok f_one ∧
  (length (args_volumes args) = 2%nat →
   ∀ w : world G, main args w = main_two args volumes mask f_one w) ∧
  (length (args_volumes args) = 3%nat →
   ∀ w : world G,
     main args w = main_three args volumes mask f_one (main_plot_file args) w).
Proof.
  intros HApix Hvols volumes mask.
  assert (main_apix args volumes = Ok f_one) as Hmain.
  { unfold main_apix. rewrite omap_apix_none.
    - simpl. destruct (args_Apix args) as [a|]; [|done]. by rewrite HApix.
    - intros vol Hvol. unfold volumes in Hvol.
      apply list_elem_of_fmap in Hvol as (path & -> & Hpath). by apply Hvols. }
  split; [done|]. split.
  - intros Hlen w. unfold main. rewrite Hlen. simpl.
    unfold bind, lift. fold volumes. by rewrite Hmain.
  - intros Hlen w. unfold main. rewrite Hlen. simpl.
    unfold bind, lift. fold volumes. by rewrite Hmain.
Qed.

End Main.

(** C9, as first stated, fails: with three volumes of differing pixel sizes,
    no [--Apix] and [--corrected 10], the error raised is the one about the
    pixel sizes, not the input conflict. *)
Lemma main_three_corrected_apix_first :
  main toy_args_conflict toy_world = (Err apix_differ_error, toy_world) ∧
  apix_differ_error ≠ corrected_conflict_error.
Proof. split; [reflexivity|discriminate]. Qed.

(** The amended C9 on the toy command line whose volumes agree on the pixel
    size: the input conflict is raised and the world is untouched. *)
Lemma main_three_corrected_raises_witness :
  main toy_args_three toy_world
  = (Err (match main_apix toy_args_three
                  (ImageSource_from_file <$> args_volumes toy_args_three) with
          | Ok _ => corrected_conflict_error
          | Err _ => apix_differ_error
          end), toy_world).
Proof.
  apply (main_three_corrected_raises (Collaborators0 := toy) toy_args_three
           (Fin 10) toy_world); reflexivity.
Defined.

(** C10 on a toy command line: [--Apix 0] and two volumes without pixel size. *)
Lemma main_apix_default_witness :
  main_apix toy_args_no_apix
    (ImageSource_from_file <$> args_volumes toy_args_no_apix) = Ok f_one ∧
  (length (args_volumes toy_args_no_apix) = 2%nat →
   ∀ w : world unit,
     main toy_args_no_apix w
     = main_two toy_args_no_apix
         (ImageSource_from_file <$> args_volumes toy_args_no_apix)
         (parse_mrc <$> args_mask toy_args_no_apix) f_one w) ∧
  (length (args_volumes toy_args_no_apix) = 3%nat →
   ∀ w : world unit,
     main toy_args_no_apix w
     = main_three toy_args_no_apix
         (ImageSource_from_file <$> args_volumes toy_args_no_apix)
         (parse_mrc <$> args_mask toy_args_no_apix) f_one
         (main_plot_file toy_args_no_apix) w).
Proof.
  apply (main_apix_default (Collaborators0 := toy) toy_args_no_apix).
  - reflexivity.
  - intros path Hpath. simpl in Hpath.
    apply elem_of_cons in Hpath as [->|Hpath]; [reflexivity|].
    apply elem_of_cons in Hpath as [->|Hpath]; [reflexivity|].
    by apply elem_of_nil in Hpath.
Defined.

(** ** Masking across calls *)

(** C1 (as the code behaves). On the toy volumes: a call of [calculate_fsc]
    with the spherical mask, a torch tensor, leaves the first half-map
    multiplied by the mask; and after a run of the orchestrator the half-map
    holds that product instead of its original values (the dilated masks are
    numpy arrays and are not multiplied into it). *)
Theorem calculate_fsc_overwrites_volumes :
  let sphere := mask_data (spherical_window_mask 4) in
  heap toy_world !!! 1%nat = toy_volume 2 ∧
  heap (calculate_fsc 1%nat 2%nat (Some (spherical_window_mask 4)) None
          toy_world).2 !!! 1%nat
  = tensor_mul (toy_volume 2) sphere ∧
  voxels (tensor_mul (toy_volume 2) sphere) !! 0%nat = Some (Fin (2 * (1 # 2))) ∧
  voxels (toy_volume 2) !! 0%nat = Some (Fin 2) ∧
  f_eq (Fin (2 * (1 # 2))) (Fin 2) = false ∧
  ∃ fsc_vals w',
    calculate_cryosparc_fscs 0%nat 1%nat 2%nat None (25, 15) (TightTuple 6 6)
      f_one None None toy_world = (Ok fsc_vals, w') ∧
    heap w' !!! 1%nat = tensor_mul (toy_volume 2) sphere.
Proof.
  cbv zeta. split; [reflexivity|]. split; [vm_compute; reflexivity|].
  do 3 (split; [reflexivity|]).
  eexists _, _. split; vm_compute; reflexivity.
Qed.

Section Frame.
Context {C G : Type} `{!Collaborators C G}.

(** In general, for a spherical mask that is a torch tensor: the curve
    labelled Loose is computed in a world where the half-maps are already
    multiplied by the spherical mask, so the tensor that is transformed for it
    is the half-map times the spherical mask times the loose mask. *)
Lemma cryosparc_curves_inputs half_vol1 half_vol2 sphere loose tight
    (w0 w1 : world G) fsc_vals d_loose :
  half_vol1 ≠ half_vol2 →
  for_items (λ mask, calculate_fsc half_vol1 half_vol2 mask None)
    [("No Mask", None); ("Spherical", Some (TorchMask sphere));
     ("Loose", Some loose); ("Tight", Some tight)] w0 = (Ok fsc_vals, w1) →
  dict_get fsc_vals "Loose" = Ok d_loose →
  ∃ ws,
    heap ws !!! half_vol1 = tensor_mul (heap w0 !!! half_vol1) sphere ∧
    (calculate_fsc half_vol1 half_vol2 (Some loose) None ws).1 = Ok d_loose ∧
    (masked half_vol1 half_vol2 (Some loose) ws).1
    = tensor_mul (tensor_mul (heap w0 !!! half_vol1) sphere) (mask_data loose).
Proof.
  intros Hne Hitems Hl.
  apply for_items_four in Hitems
    as (d0 & d1 & d2 & d3 & -> & _ & _ & H2 & _ & _).
  simpl in Hl. injection Hl as <-.
  eexists. split; [|split; [by rewrite H2|]].
  - by apply premasked_lookup_1.
  - rewrite masked_1 by done. by rewrite premasked_lookup_1.
Qed.

End Frame.

(** * Further properties of the module *)

(** The volumes and the mask handed to one call have one cubic shape, as the
    callers of the module provide them: the elementwise products and the
    selections of the model are those of that case.  Where a statement fixes
    the outcome of a call outright, the shapes are hypotheses. *)

(** ** The distance grid on every side *)

(** The grid over the coordinates [lo .. lo + n - 1], voxel by voxel. *)
Lemma meshgrid_shift lo (n : Z) :
  (x2 ← arange lo (lo + n); x1 ← arange lo (lo + n);
   x0 ← arange lo (lo + n); [x0 ^ 2 + x1 ^ 2 + x2 ^ 2])
  = (λ idx : Z * Z * Z, (idx.2 + lo) ^ 2 + (idx.1.2 + lo) ^ 2 + (idx.1.1 + lo) ^ 2)
      <$> voxel_indices n.
Proof.
  assert (arange lo (lo + n) = (λ a, a + lo) <$> arange 0 n) as ->.
  { replace lo with (0 + lo) at 1 by lia. rewrite (Z.add_comm lo n).
    apply arange_shift. }
  unfold voxel_indices.
  rewrite list_fmap_bind, fmap_bind_comm.
  apply list_bind_ext; [|done]. intros a. simpl.
  rewrite list_fmap_bind, fmap_bind_comm.
  apply list_bind_ext; [|done]. intros b. simpl.
  rewrite list_fmap_bind, fmap_bind_comm.
  apply list_bind_ext; [|done]. intros c. done.
Qed.

Lemma get_fftn_dists_odd D :
  0 < D → D mod 2 = 1 → get_fftn_dists D = Err AssertionError.
Proof.
  intros HD Hodd. unfold get_fftn_dists. cbv zeta.
  pose proof (Z.div_mod D 2 ltac:(lia)) as Hdm.
  assert (Z.opp D / 2 = - (D / 2) - 1) as Hlo.
  { symmetry. apply (Z.div_unique _ 2 _ 1); lia. }
  assert (arange (Z.opp D / 2) (D / 2)
          = arange (- (D / 2) - 1) ((- (D / 2) - 1) + D)) as ->.
  { rewrite Hlo. f_equal. lia. }
  rewrite meshgrid_shift, length_arange.
  replace (Z.to_nat (- (D / 2) - 1 + D - (- (D / 2) - 1))) with (Z.to_nat D) by lia.
  unfold index3, norm_index.
  rewrite decide_True by lia. simpl.
  rewrite list_lookup_fmap, lookup_voxel_indices by lia. simpl.
  rewrite Z2Nat.id by lia.
  replace (D / 2 + (- (D / 2) - 1)) with (-1) by lia. done.
Qed.

Lemma get_fftn_dists_nonpositive D :
  D <= 0 → get_fftn_dists D = Err IndexError.
Proof.
  intros HD. unfold get_fftn_dists. cbv zeta.
  assert (D / 2 <= Z.opp D / 2) as Hle.
  { transitivity 0.
    - apply Z.div_le_upper_bound; lia.
    - apply Z.div_pos; lia. }
  rewrite (arange_nil _ _ Hle). unfold index3, norm_index. simpl.
  rewrite !decide_False by lia. done.
Qed.

(** [get_fftn_dists] returns a grid exactly for the even positive sides: on an
    odd side the centre index does not sit on the zero coordinate and the
    assertion fails; without voxels the centre index does not exist. *)
Theorem get_fftn_dists_cases D :
  get_fftn_dists D
  = if D <=? 0 then Err IndexError
    else if D mod 2 =? 0 then Ok (center_dist2 D <$> voxel_indices D)
    else Err AssertionError.
Proof.
  destruct (Z.leb_spec D 0); [by apply get_fftn_dists_nonpositive|].
  destruct (Z.eqb_spec (D mod 2) 0); [by apply get_fftn_dists_even|].
  apply get_fftn_dists_odd; [done|].
  pose proof (Z.mod_pos_bound D 2). lia.
Qed.

(** On an even side, the entry of the grid at [a, b, c] is the squared
    distance of that voxel from the centre index, and the grid holds one
    entry per voxel. *)
Theorem get_fftn_dists_entry D a b c :
  0 < D → D mod 2 = 0 → 0 <= a < D → 0 <= b < D → 0 <= c < D →
  ∃ dists,
    get_fftn_dists D = Ok dists ∧
    length dists = Z.to_nat (D * D * D) ∧
    index3 (Z.to_nat D) dists a b c
    = Some ((a - D / 2) ^ 2 + (b - D / 2) ^ 2 + (c - D / 2) ^ 2).
Proof.
  intros HD Heven Ha Hb Hc. eexists. split; [by apply get_fftn_dists_even|].
  split.
  - rewrite length_fmap, length_voxel_indices. lia.
  - unfold index3, norm_index. rewrite !decide_True by lia. simpl.
    rewrite list_lookup_fmap, lookup_voxel_indices by lia. simpl.
    rewrite !Z2Nat.id by lia. f_equal. lia.
Qed.

Lemma get_fftn_dists_entry_witness :
  ∃ dists,
    get_fftn_dists 4 = Ok dists ∧
    length dists = Z.to_nat (4 * 4 * 4) ∧
    index3 (Z.to_nat 4) dists 3 0 1
    = Some ((3 - 4 / 2) ^ 2 + (0 - 4 / 2) ^ 2 + (1 - 4 / 2) ^ 2).
Proof.
  apply (get_fftn_dists_entry 4 3 0 1); (reflexivity || lia).
Defined.

Lemma get_fftn_dists_ok_inv D dists :
  get_fftn_dists D = Ok dists →
  0 < D ∧ D mod 2 = 0 ∧ dists = center_dist2 D <$> voxel_indices D.
Proof.
  intros H.
  destruct (Z.leb_spec D 0) as [Hle|Hpos].
  { rewrite get_fftn_dists_nonpositive in H by done. discriminate. }
  destruct (Z.eqb_spec (D mod 2) 0) as [Heven|Hodd].
  - rewrite get_fftn_dists_even in H by done. by injection H as <-.
  - rewrite get_fftn_dists_odd in H; [discriminate|done|].
    pose proof (Z.mod_pos_bound D 2). lia.
Qed.

(** ** Outcomes and footprint of [calculate_fsc] *)

Section CalculatorOutcomes.
Context {C G : Type} `{!Collaborators C G}.

(** [calculate_fsc] returns a curve exactly when the side of the first volume
    is even and positive; on an odd side it raises [AssertionError] (from the
    distance grid) and on an empty volume [IndexError].  In every case the
    products with the mask have been taken before the side is looked at: a
    torch mask has then been multiplied into the caller's volumes, also when
    the call raises, and a numpy mask has left them as they were. *)
Theorem calculate_fsc_outcomes vol1 vol2 initial_mask out_file (w : world G) D :
  cubic D (heap w !!! vol1) → cubic D (heap w !!! vol2) →
  from_option (λ m, cubic D (mask_data m)) True initial_mask →
  let vm := masked vol1 vol2 initial_mask w in
  calculate_fsc vol1 vol2 initial_mask out_file w
  = (if D <=? 0 then Err IndexError
     else if D mod 2 =? 0 then
       Ok (zip (pixres_axis D)
               (f_one :: shell_values D (voxels (fftn_center vm.1))
                                        (voxels (fftn_center vm.2))))
     else Err AssertionError,
     match initial_mask with
     | Some (TorchMask a) =>
         World (<[vol2 := tensor_mul
                            (<[vol1 := tensor_mul (heap w !!! vol1) a]> (heap w)
                               !!! vol2) a]>
                  (<[vol1 := tensor_mul (heap w !!! vol1) a]> (heap w)))
               (rng w)
     | _ => w
     end).
Proof.
  intros [HD _] _ _ vm.
  assert (match initial_mask with
          | Some (TorchMask a) =>
              World (<[vol2 := tensor_mul
                                 (<[vol1 := tensor_mul (heap w !!! vol1) a]> (heap w)
                                    !!! vol2) a]>
                       (<[vol1 := tensor_mul (heap w !!! vol1) a]> (heap w)))
                    (rng w)
          | _ => w
          end = premasked vol1 vol2 initial_mask w) as ->.
  { by destruct initial_mask as [[a|a]|]. }
  destruct (Z.leb_spec D 0) as [Hle|Hpos].
  { rewrite calculate_fsc_unfold. cbv zeta. rewrite HD.
    by rewrite get_fftn_dists_nonpositive. }
  destruct (Z.eqb_spec (D mod 2) 0) as [Heven|Hodd].
  { by apply calculate_fsc_eq. }
  rewrite calculate_fsc_unfold. cbv zeta. rewrite HD.
  rewrite get_fftn_dists_odd; [done|done|].
  pose proof (Z.mod_pos_bound D 2). lia.
Qed.

(** [calculate_fsc] never draws from the random source and never touches a
    tensor other than its two volumes. *)
Theorem calculate_fsc_frame vol1 vol2 initial_mask out_file (w : world G) l :
  l ≠ vol1 → l ≠ vol2 →
  heap (calculate_fsc vol1 vol2 initial_mask out_file w).2 !!! l = heap w !!! l ∧
  rng (calculate_fsc vol1 vol2 initial_mask out_file w).2 = rng w.
Proof.
  intros H1 H2. rewrite calculate_fsc_world. split.
  - by apply premasked_lookup_other.
  - apply premasked_rng.
Qed.

(** When the same array is given for both volumes, a torch mask is multiplied
    into it twice; a numpy mask leaves it as it was. *)
Theorem calculate_fsc_same_volume vol mask out_file (w : world G) D :
  cubic D (heap w !!! vol) → cubic D (mask_data mask) →
  heap (calculate_fsc vol vol (Some mask) out_file w).2 !!! vol
  = match mask with
    | TorchMask a => tensor_mul (tensor_mul (heap w !!! vol) a) a
    | ArrayMask _ => heap w !!! vol
    end.
Proof.
  intros _ _. rewrite calculate_fsc_world.
  destruct mask as [a|a]; [|done].
  unfold premasked. simpl.
  by rewrite !lookup_total_insert_eq.
Qed.

End CalculatorOutcomes.

Lemma calculate_fsc_frame_witness :
  heap (calculate_fsc 1%nat 2%nat (Some (spherical_window_mask 4)) None toy_world).2
    !!! 0%nat = heap toy_world !!! 0%nat ∧
  rng (calculate_fsc 1%nat 2%nat (Some (spherical_window_mask 4)) None toy_world).2
  = rng toy_world.
Proof.
  apply (calculate_fsc_frame (Collaborators0 := toy) 1%nat 2%nat
           (Some (spherical_window_mask 4)) None toy_world 0%nat); lia.
Defined.

(** ** Thresholds of a curve *)

Lemma cutoffs_ordered : f_ge cutoff_05 cutoff_143 = true.
Proof. reflexivity. Qed.

(** The two thresholds are consistent: a defined threshold is a positive
    pixel resolution, a curve with a 0.5 threshold has a 0.143 threshold, and
    the 0.143 threshold is at least the 0.5 threshold. *)
Theorem get_fsc_thresholds_ordered (fsc_vals : DataFrame) (apix_ : float64)
    (verbose : bool) :
  match get_fsc_thresholds fsc_vals apix_ verbose with
  | (Some res_05, Some res_143) =>
      f_gt res_05 f_zero = true ∧ f_gt res_143 f_zero = true ∧
      f_ge res_143 res_05 = true
  | (Some _, None) => False
  | (None, Some res_143) => f_gt res_143 f_zero = true
  | (None, None) => True
  end.
Proof.
  unfold get_fsc_thresholds. cbv zeta.
  pose proof (threshold_at_spec cutoff_05 fsc_vals) as H5.
  pose proof (threshold_at_spec cutoff_143 fsc_vals) as H143.
  destruct (threshold_at cutoff_05 fsc_vals) as [r5|];
    destruct (threshold_at cutoff_143 fsc_vals) as [r143|]; simpl in *.
  - destruct H5 as [(r & Hin & [Hgt Hge] & <-) _].
    destruct H143 as [(r' & Hin' & [Hgt' Hge'] & <-) Hmax].
    split; [done|]. split; [done|].
    apply Hmax; [done|]. split; [done|].
    eapply f_ge_trans; [exact Hge|exact cutoffs_ordered].
  - destruct H5 as [(r & Hin & [Hgt Hge] & <-) _].
    apply (H143 r Hin). split; [done|].
    eapply f_ge_trans; [exact Hge|exact cutoffs_ordered].
  - by destruct H143 as [(r' & Hin' & [Hgt' Hge'] & <-) _].
  - done.
Qed.

Section CurveThresholds.
Context {C G : Type} `{!Collaborators C G}.

Lemma calculate_fsc_ok_inv vol1 vol2 initial_mask out_file (w w' : world G)
    fsc_vals :
  calculate_fsc vol1 vol2 initial_mask out_file w = (Ok fsc_vals, w') →
  let D := shape0 (heap w !!! vol1) in
  let wm := premasked vol1 vol2 initial_mask w in
  let vm := masked vol1 vol2 initial_mask w in
  0 < D ∧ D mod 2 = 0 ∧ w' = wm ∧
  fsc_vals = zip (pixres_axis D)
                 (f_one :: shell_values D (voxels (fftn_center vm.1))
                                          (voxels (fftn_center vm.2))).
Proof.
  intros Hrun D wm vm. pose proof Hrun as H0.
  rewrite calculate_fsc_unfold in H0. cbv zeta in H0. fold D in H0.
  destruct (get_fftn_dists D) as [dists|e] eqn:Ed; [|discriminate].
  apply get_fftn_dists_ok_inv in Ed as (Hpos & Heven & _).
  rewrite (calculate_fsc_eq vol1 vol2 initial_mask out_file w D eq_refl Hpos Heven)
    in Hrun.
  injection Hrun as <- <-. done.
Qed.

Lemma f_ge_pixres_inv D j n :
  0 < D → f_ge (f_div (f_of_Z n) (f_of_Z D)) (f_div (f_of_Z j) (f_of_Z D)) = true →
  j <= n.
Proof.
  intros HD Hge. destruct (Z.le_gt_cases j n) as [|Hlt]; [done|]. exfalso.
  pose proof (pixres_increasing D n j HD ltac:(lia)) as Hinc.
  rewrite !f_div_of_Z in Hge, Hinc by lia.
  apply f_ge_Fin in Hge. unfold f_lt in Hinc. apply f_gt_Fin in Hinc.
  eapply Qlt_not_le; eauto.
Qed.

(** On a curve returned by [calculate_fsc] for a volume of side [D], a
    defined threshold is [k/D] for the last shell [k] whose correlation is at
    least the cutoff: [1 <= k < D/2], shell [k] meets the cutoff and no later
    shell does.  (So a volume of side 2, whose curve has the DC entry only,
    never has a threshold.) *)
Theorem calculate_fsc_threshold_shell vol1 vol2 initial_mask out_file
    (w w' : world G) fsc_vals cutoff thr :
  calculate_fsc vol1 vol2 initial_mask out_file w = (Ok fsc_vals, w') →
  threshold_at cutoff fsc_vals = Some thr →
  let D := shape0 (heap w !!! vol1) in
  ∃ k y,
    1 <= k < D / 2 ∧
    thr = f_div (f_of_Z k) (f_of_Z D) ∧
    df_fsc fsc_vals !! Z.to_nat k = Some y ∧ f_ge y cutoff = true ∧
    ∀ j z, k < j → df_fsc fsc_vals !! Z.to_nat j = Some z → f_ge z cutoff = false.
Proof.
  intros Hrun Hthr D.
  apply calculate_fsc_ok_inv in Hrun as (Hpos & Heven & _ & Hdf). fold D in Hpos, Heven, Hdf.
  set (fsc := f_one :: shell_values D _ _) in Hdf.
  assert (length (pixres_axis D) = length fsc) as Hlen.
  { unfold fsc. simpl. rewrite length_pixres_axis, length_shell_values.
    pose proof (Z.div_mod D 2). lia. }
  pose proof (threshold_at_spec cutoff fsc_vals) as Hspec. rewrite Hthr in Hspec.
  destruct Hspec as [([p y] & Hin & [Hgt Hge] & Hp) Hmax]. simpl in Hgt, Hge, Hp. subst p.
  apply list_elem_of_lookup in Hin as [n Hn].
  rewrite Hdf in Hn. apply lookup_zip_with_Some in Hn as (p' & y' & Heq & Hpn & Hyn).
  injection Heq as <- <-.
  assert (n < Z.to_nat (D / 2))%nat as Hnlt.
  { apply lookup_lt_Some in Hpn. by rewrite length_pixres_axis in Hpn. }
  pose proof (lookup_pixres_axis D (Z.of_nat n) ltac:(lia)) as Hax.
  rewrite Nat2Z.id in Hax.
  assert (thr = f_div (f_of_Z (Z.of_nat n)) (f_of_Z D)) as Hthr_eq by congruence.
  assert (Z.of_nat n ≠ 0) as Hn0.
  { intros H0. rewrite H0 in Hthr_eq. rewrite Hthr_eq in Hgt.
    rewrite f_div_of_Z in Hgt by lia. apply f_gt_Fin in Hgt.
    change (inject_Z 0) with 0%Q in Hgt. unfold Qdiv in Hgt.
    rewrite Qmult_0_l in Hgt. by apply Qlt_irrefl in Hgt. }
  assert (df_fsc fsc_vals = fsc) as Hfsc.
  { rewrite Hdf. unfold df_fsc. apply snd_zip. lia. }
  exists (Z.of_nat n), y. split; [lia|]. split; [done|].
  rewrite Hfsc, Nat2Z.id. split; [done|]. split; [done|].
  intros j z Hj Hz.
  destruct (f_ge z cutoff) eqn:Ez; [|done]. exfalso.
  assert (Z.to_nat j < length fsc)%nat as Hjl by (by apply lookup_lt_Some in Hz).
  assert (j < D / 2) as HjD by (rewrite <- Hlen, length_pixres_axis in Hjl; lia).
  assert ((f_div (f_of_Z j) (f_of_Z D), z) ∈ fsc_vals) as Hin.
  { apply list_elem_of_lookup. exists (Z.to_nat j). rewrite Hdf.
    apply lookup_zip_with_Some. eexists _, _. split; [done|]. split; [|done].
    apply lookup_pixres_axis. lia. }
  specialize (Hmax _ Hin). simpl in Hmax.
  assert (f_gt (f_div (f_of_Z j) (f_of_Z D)) f_zero = true) as Hjpos.
  { pose proof (pixres_increasing D 0 j Hpos ltac:(lia)) as Hinc.
    unfold f_lt in Hinc. rewrite (f_div_of_Z 0) in Hinc by lia.
    rewrite f_div_of_Z in Hinc |- * by lia.
    apply f_gt_Fin in Hinc. apply f_gt_Fin.
    eapply Qle_lt_trans; [|exact Hinc]. vm_compute. discriminate. }
  specialize (Hmax (conj Hjpos Ez)).
  rewrite Hthr_eq in Hmax. apply f_ge_pixres_inv in Hmax; lia.
Qed.

End CurveThresholds.

(** ** Outcomes and footprint of [correct_fsc] *)

Section CorrectorOutcomes.
Context {C G : Type} `{!Collaborators C G}.

Lemma shuffle_heap (l : list nat) (w : world G) :
  heap (shuffle l w).2 = heap w ∧ ∃ l', (shuffle l w).1 = Ok l'.
Proof.
  unfold shuffle. destruct (random_shuffle l (rng w)) as [l' g']. simpl. eauto.
Qed.

Lemma phase_randomize_heap dists phase_D (v1 v2 : list C) (w : world G) :
  heap (phase_randomize dists phase_D v1 v2 w).2 = heap w.
Proof.
  unfold phase_randomize. cbv zeta. unfold bind, shuffle, lift, ret.
  destruct (random_shuffle _ (rng w)) as [i1 g1].
  destruct (permute_region _ v1 i1); simpl; [|done].
  destruct (random_shuffle i1 g1) as [i2 g2].
  destruct (permute_region _ v2 i2); done.
Qed.

(** Whatever its outcome, [correct_fsc] writes to no tensor of the caller
    except through the two products with the mask: after a call with a torch
    mask the two volumes are multiplied by it, after a call with a numpy mask
    or without mask the heap is as before.  The transformed and shuffled
    coefficients stay local. *)
Theorem correct_fsc_footprint fsc_vals vol1 vol2 randomization_threshold
    initial_mask (w : world G) D :
  cubic D (heap w !!! vol1) → cubic D (heap w !!! vol2) →
  from_option (λ m, cubic D (mask_data m)) True initial_mask →
  heap (correct_fsc fsc_vals vol1 vol2 randomization_threshold initial_mask w).2
  = match initial_mask with
    | Some (TorchMask a) =>
        <[vol2 := tensor_mul
                    (<[vol1 := tensor_mul (heap w !!! vol1) a]> (heap w) !!! vol2) a]>
          (<[vol1 := tensor_mul (heap w !!! vol1) a]> (heap w))
    | _ => heap w
    end.
Proof.
  intros _ _ _.
  assert (match initial_mask with
          | Some (TorchMask a) =>
              <[vol2 := tensor_mul
                          (<[vol1 := tensor_mul (heap w !!! vol1) a]> (heap w)
                             !!! vol2) a]>
                (<[vol1 := tensor_mul (heap w !!! vol1) a]> (heap w))
          | _ => heap w
          end = heap (premasked vol1 vol2 initial_mask w)) as ->.
  { by destruct initial_mask as [[a|a]|]. }
  rewrite correct_fsc_unfold. cbv zeta.
  destruct (decide _); [done|].
  destruct (get_fftn_dists _) as [dists|e]; [|done].
  destruct (py_int _) as [phase_D|e]; [|done].
  pose proof (phase_randomize_heap dists phase_D
                (voxels (fftn_center (masked vol1 vol2 initial_mask w).1))
                (voxels (fftn_center (masked vol1 vol2 initial_mask w).2))
                (premasked vol1 vol2 initial_mask w)) as Hh.
  destruct (phase_randomize _ _ _ _ _) as [[vols|e] ws]; done.
Qed.

(** The length check comes after the masking: on a curve of the wrong length
    [correct_fsc] raises in the world the two products leave, and without a
    draw from the random source. *)
Lemma correct_fsc_length_error_world fsc_vals vol1 vol2
    randomization_threshold initial_mask (w : world G) :
  Z.of_nat (length fsc_vals) ≠ shape0 (heap w !!! vol1) / 2 →
  correct_fsc fsc_vals vol1 vol2 randomization_threshold initial_mask w
  = (Err fsc_length_error, premasked vol1 vol2 initial_mask w).
Proof.
  intros Hne. rewrite correct_fsc_unfold. cbv zeta. by rewrite decide_True.
Qed.

(** What a returning call of [correct_fsc] went through. *)
Lemma correct_fsc_ok_inv fsc_vals vol1 vol2 thr initial_mask (w w' : world G) out :
  correct_fsc fsc_vals vol1 vol2 thr initial_mask w = (Ok out, w') →
  let wm := premasked vol1 vol2 initial_mask w in
  let vm := masked vol1 vol2 initial_mask w in
  let D := shape0 (heap w !!! vol1) in
  0 < D ∧ D mod 2 = 0 ∧ Z.of_nat (length fsc_vals) = D / 2 ∧
  ∃ phase_D s1 s2,
    py_int (f_mul thr (f_of_Z D)) = Ok phase_D ∧
    phase_randomize (center_dist2 D <$> voxel_indices D) phase_D
      (voxels (fftn_center vm.1))
      (voxels (fftn_center vm.2)) wm = (Ok (s1, s2), w') ∧
    length out = length fsc_vals ∧
    df_pixres out = pixres_axis D ∧
    ∀ i x, 0 <= i < D / 2 → df_fsc fsc_vals !! Z.to_nat i = Some x →
      df_fsc out !! Z.to_nat i = Some (corrected_entry D phase_D s1 s2 i x).
Proof.
  intros Hrun wm vm D. pose proof Hrun as H0.
  rewrite correct_fsc_unfold in H0. cbv zeta in H0. fold wm vm D in H0.
  destruct (decide _) as [|Hlen]; [discriminate|].
  apply dec_stable in Hlen.
  destruct (get_fftn_dists D) as [dists|e] eqn:Ed; [|discriminate].
  apply get_fftn_dists_ok_inv in Ed as (Hpos & Heven & ->).
  destruct (py_int _) as [phase_D|e] eqn:Ep; [|discriminate].
  destruct (phase_randomize _ _ _ _ _) as [[[s1 s2]|e] ws] eqn:Er; [|discriminate].
  assert (ws = w') as -> by congruence.
  split; [done|]. split; [done|]. split; [done|].
  exists phase_D, s1, s2. split; [done|]. split; [done|].
  destruct (correct_fsc_eq fsc_vals vol1 vol2 thr initial_mask w D phase_D s1 s2 w'
              eq_refl Hpos Heven Hlen Ep Er) as (out' & Hrun' & Hl & Hp & Hv).
  assert (out' = out) as -> by congruence. done.
Qed.

(** A returned corrected curve has the length of the given curve, and its
    pixel-resolution axis is rebuilt as [i/D] from the side of the volumes:
    the pixel-resolution column of the given curve is not used. *)
Theorem correct_fsc_axis fsc_vals vol1 vol2 randomization_threshold initial_mask
    (w w' : world G) out :
  correct_fsc fsc_vals vol1 vol2 randomization_threshold initial_mask w
  = (Ok out, w') →
  length out = length fsc_vals ∧
  df_pixres out = pixres_axis (shape0 (heap w !!! vol1)).
Proof.
  intros Hrun.
  apply correct_fsc_ok_inv in Hrun as (_ & _ & _ & pd & s1 & s2 & _ & _ & Hl & Hp & _).
  done.
Qed.

(** A randomization threshold whose shell index [phase_D] reaches the last
    shell leaves every correlation as it was given. *)
Theorem correct_fsc_beyond_last_shell fsc_vals vol1 vol2 randomization_threshold
    initial_mask (w w' : world G) out phase_D :
  correct_fsc fsc_vals vol1 vol2 randomization_threshold initial_mask w
  = (Ok out, w') →
  py_int (f_mul randomization_threshold (f_of_Z (shape0 (heap w !!! vol1))))
  = Ok phase_D →
  shape0 (heap w !!! vol1) / 2 - 1 <= phase_D →
  df_fsc out = df_fsc fsc_vals.
Proof.
  intros Hrun Hint Hlast.
  apply correct_fsc_ok_inv in Hrun
    as (Hpos & Heven & Hlen & pd & s1 & s2 & Hint' & _ & Hl & _ & Hv).
  assert (pd = phase_D) as -> by congruence.
  set (D := shape0 (heap w !!! vol1)) in *.
  apply list_eq. intros j.
  destruct (df_fsc fsc_vals !! j) as [x|] eqn:Ex.
  - assert (j < length (df_fsc fsc_vals))%nat as Hj by (by apply lookup_lt_Some in Ex).
    unfold df_fsc in Hj. rewrite length_fmap in Hj.
    rewrite <- (Nat2Z.id j) in Ex |- *.
    rewrite (Hv (Z.of_nat j) x) by (done || lia).
    unfold corrected_entry. by rewrite decide_True by lia.
  - apply lookup_ge_None. apply lookup_ge_None in Ex.
    unfold df_fsc in *. rewrite length_fmap in *. lia.
Qed.

End CorrectorOutcomes.

(** ** Range of the corrected correlations *)

Lemma f_clip_unit q :
  ∃ q', f_clip (Fin q) f_zero f_one = Fin q' ∧ (0 <= q' <= 1)%Q.
Proof.
  unfold f_clip, f_lt.
  destruct (f_gt f_zero (Fin q)) eqn:E0.
  { exists 0%Q. split; [done|]. split; [apply Qle_refl|discriminate]. }
  destruct (f_gt (Fin q) f_one) eqn:E1.
  { exists 1%Q. split; [done|]. split; [discriminate|apply Qle_refl]. }
  exists q. split; [done|].
  unfold f_zero, f_one in *. simpl in E0, E1.
  rewrite negb_false_iff in E0, E1. apply Qle_bool_iff in E0, E1. done.
Qed.

Lemma corrected_value_unit x p :
  f_isnan p = false →
  ∃ q, corrected_value (Fin x) p = Fin q ∧ (0 <= q <= 1)%Q.
Proof.
  intros Hp. destruct p as [|pq]; [discriminate|].
  unfold corrected_value.
  destruct (f_eq (Fin pq) f_one) eqn:E1.
  { exists 0%Q. split; [done|]. split; [apply Qle_refl|discriminate]. }
  simpl f_isnan. cbv iota.
  pose proof (f_sub_one_nonzero pq E1) as Hnz. simpl in Hnz.
  unfold f_sub, f_div. unfold f_one. rewrite Hnz. apply f_clip_unit.
Qed.

Section CorrectedRange.
Context {C G : Type} `{!Collaborators C G}.

(** In a returned corrected curve, a shell beyond [phase_D] whose given
    correlation is a number either keeps that number (the correlation of the
    randomized volumes was NaN) or holds a number between 0 and 1. *)
Theorem correct_fsc_range fsc_vals vol1 vol2 randomization_threshold initial_mask
    (w w' : world G) out phase_D i x y :
  correct_fsc fsc_vals vol1 vol2 randomization_threshold initial_mask w
  = (Ok out, w') →
  py_int (f_mul randomization_threshold (f_of_Z (shape0 (heap w !!! vol1))))
  = Ok phase_D →
  phase_D < i → 1 <= i →
  df_fsc fsc_vals !! Z.to_nat i = Some (Fin x) →
  df_fsc out !! Z.to_nat i = Some y →
  y = Fin x ∨ ∃ q, y = Fin q ∧ (0 <= q <= 1)%Q.
Proof.
  intros Hrun Hint Hpi Hi Hx Hy.
  apply correct_fsc_ok_inv in Hrun
    as (Hpos & Heven & Hlen & pd & s1 & s2 & Hint' & _ & Hl & _ & Hv).
  assert (pd = phase_D) as -> by congruence.
  set (D := shape0 (heap w !!! vol1)) in *.
  assert (i < D / 2) as HiD.
  { apply lookup_lt_Some in Hx. unfold df_fsc in Hx. rewrite length_fmap in Hx. lia. }
  rewrite (Hv i (Fin x)) in Hy by (done || lia). injection Hy as <-.
  unfold corrected_entry. rewrite decide_False by lia.
  set (p := shell_corr _ _).
  destruct (f_isnan p) eqn:Ep.
  - left. destruct p; [|discriminate]. done.
  - right. by apply corrected_value_unit.
Qed.

End CorrectedRange.

(** ** What the phase randomization keeps *)

Section PhaseRandomization.
Context {C G : Type} `{!Collaborators C G} `{!CollaboratorsOk _}.

Lemma permute_region_spec (m : list bool) (v : list C) inds :
  (length m <= length v)%nat → inds ≡ₚ seq 0 (count_true m) →
  ∃ v', permute_region m v inds = Ok v' ∧ v' ≡ₚ v ∧ length v' = length v ∧
        ∀ k, m !! k = Some false → v' !! k = v !! k.
Proof.
  intros Hlen Hperm. unfold permute_region.
  rewrite <- (length_select m v Hlen) in Hperm.
  destruct (gather_perm (select m v) inds Hperm) as [vals Hvals].
  rewrite Hvals. simpl. eexists. split; [done|].
  pose proof (gather_permutation _ _ _ Hperm Hvals) as Hp.
  destruct (scatter_split m v) as (rest & Hv & Hs).
  split; [|split].
  - rewrite Hs by (by apply Permutation_length).
    etrans; [|symmetry; exact Hv]. by rewrite Hp.
  - apply length_scatter.
  - intros k Hk. by apply scatter_lookup_false.
Qed.

(** With a shuffle that permutes, [phase_randomize] returns, for each volume,
    a rearrangement of its coefficients that leaves in place every coefficient
    at a distance of at most [phase_D] from the centre; the heap is not
    touched. *)
Theorem phase_randomize_keeps dists phase_D (v1 v2 : list C) (w : world G) :
  (length dists <= length v1)%nat → (length dists <= length v2)%nat →
  ∃ s1 s2 ws,
    phase_randomize dists phase_D v1 v2 w = (Ok (s1, s2), ws) ∧
    heap ws = heap w ∧
    s1 ≡ₚ v1 ∧ s2 ≡ₚ v2 ∧
    ∀ k d, dists !! k = Some d → dist_gt d phase_D = false →
      s1 !! k = v1 !! k ∧ s2 !! k = v2 !! k.
Proof.
  intros H1 H2. unfold phase_randomize. cbv zeta.
  set (phase_mask := (λ d, dist_gt d phase_D) <$> dists).
  assert (length phase_mask = length dists) as Hpm
    by (unfold phase_mask; by rewrite length_fmap).
  unfold bind, shuffle, lift, ret.
  pose proof (random_shuffle_perm (seq 0 (count_true phase_mask)) (rng w)) as Hp1.
  destruct (random_shuffle (seq 0 (count_true phase_mask)) (rng w)) as [i1 g1].
  simpl in Hp1.
  destruct (permute_region_spec phase_mask v1 i1) as (s1 & -> & Hs1 & _ & Hk1);
    [lia|done|].
  simpl.
  pose proof (random_shuffle_perm i1 g1) as Hp2.
  destruct (random_shuffle i1 g1) as [i2 g2]. simpl in Hp2.
  destruct (permute_region_spec phase_mask v2 i2) as (s2 & -> & Hs2 & _ & Hk2);
    [lia|by rewrite Hp2|].
  simpl. eexists s1, s2, _. split; [done|]. split; [done|].
  split; [done|]. split; [done|].
  intros k d Hd Hgt.
  assert (phase_mask !! k = Some false) as Hm.
  { unfold phase_mask. rewrite list_lookup_fmap, Hd. simpl. by rewrite Hgt. }
  split; [by apply Hk1|by apply Hk2].
Qed.

End PhaseRandomization.

(** ** The table of the orchestrator *)

Lemma tuple_eq_refl (l : list float64) :
  Forall (λ x, f_isnan x = false) l → tuple_eq l l = true.
Proof.
  induction 1 as [|x l Hx _ IH]; [done|]. simpl. rewrite IH, andb_true_r.
  destruct x; [discriminate|]. apply Qeq_bool_refl.
Qed.

Lemma tuple_eq_pixres_axis D : 0 < D → tuple_eq (pixres_axis D) (pixres_axis D) = true.
Proof.
  intros HD. apply tuple_eq_refl. unfold pixres_axis.
  apply Forall_fmap, Forall_forall. intros i _.
  change (f_isnan (f_div (f_of_Z i) (f_of_Z D)) = false).
  by rewrite f_div_of_Z by lia.
Qed.

Section Table.
Context {C G : Type} `{!Collaborators C G}.

(** What lines 263-285 return, on the masks the orchestrator builds: five
    curves on the axis of the half-maps' side. *)
Lemma cryosparc_curves_ok_inv half_vol1 half_vol2 sphere loose tight Apix_
    (w w' : world G) fv ft :
  cryosparc_curves half_vol1 half_vol2
    [("No Mask", None); ("Spherical", Some sphere);
     ("Loose", Some loose); ("Tight", Some tight)] Apix_ w = (Ok (fv, ft), w') →
  let D := shape0 (heap w !!! half_vol1) in
  0 < D ∧ D mod 2 = 0 ∧
  ∃ d0 d1 d2 d3 d4,
    fv = [("No Mask", d0); ("Spherical", d1); ("Loose", d2); ("Tight", d3);
          ("Corrected", d4)] ∧
    ft = [("No Mask", threshold_at cutoff_143 d0);
          ("Spherical", threshold_at cutoff_143 d1);
          ("Loose", threshold_at cutoff_143 d2);
          ("Tight", threshold_at cutoff_143 d3);
          ("Corrected", threshold_at cutoff_143 d4)] ∧
    Forall (λ d, df_pixres d = pixres_axis D ∧ Z.of_nat (length d) = D / 2)
           [d0; d1; d2; d3; d4].
Proof.
  intros Hrun D.
  destruct (for_items (λ mask, calculate_fsc half_vol1 half_vol2 mask None)
              [("No Mask", None); ("Spherical", Some sphere);
               ("Loose", Some loose); ("Tight", Some tight)] w)
    as [[fsc_vals|e] w1] eqn:Eitems.
  2:{ unfold cryosparc_curves in Hrun. unfold bind at 1 in Hrun.
      rewrite Eitems in Hrun. discriminate. }
  pose proof Eitems as Hfour.
  apply for_items_four in Hfour
    as (d0 & d1 & d2 & d3 & -> & H0 & H1 & H2 & H3 & ->).
  rewrite (cryosparc_curves_eq _ _ _ _ _ _ _ (Some tight) d3 Eitems eq_refl eq_refl)
    in Hrun.
  change (get_fsc_thresholds d3 Apix_ false).2 with (threshold_at cutoff_143 d3) in Hrun.
  apply calculate_fsc_ok_inv in H0 as (Hpos & Heven & _ & E0).
  apply calculate_fsc_ok_inv in H1 as (_ & _ & _ & E1).
  apply calculate_fsc_ok_inv in H2 as (_ & _ & _ & E2).
  apply calculate_fsc_ok_inv in H3 as (_ & _ & _ & E3).
  cbv zeta in E0, E1, E2, E3.
  rewrite ?premasked_shape in E1. rewrite ?premasked_shape in E2.
  rewrite ?premasked_shape in E3. fold D in Hpos, Heven, E0, E1, E2, E3.
  assert (∀ (d : DataFrame) fsc,
            d = zip (pixres_axis D) (f_one :: fsc) →
            length fsc = Z.to_nat (D / 2 - 1) →
            df_pixres d = pixres_axis D ∧ Z.of_nat (length d) = D / 2) as Hshape.
  { intros d fsc -> Hl.
    assert (1 <= D / 2) by (pose proof (Z.div_mod D 2); lia).
    split.
    - unfold df_pixres. apply fst_zip. rewrite length_pixres_axis. simpl. lia.
    - rewrite length_zip_with, length_pixres_axis. simpl. lia. }
  pose proof (Hshape _ _ E0 (length_shell_values _ _ _)) as S0.
  pose proof (Hshape _ _ E1 (length_shell_values _ _ _)) as S1.
  pose proof (Hshape _ _ E2 (length_shell_values _ _ _)) as S2.
  pose proof (Hshape _ _ E3 (length_shell_values _ _ _)) as S3.
  split; [done|]. split; [done|].
  destruct (threshold_at cutoff_143 d3) as [thr|] eqn:Ethr.
  - destruct (correct_fsc d3 half_vol1 half_vol2 (f_mul f_075 thr) (Some tight) _)
      as [[d4|e] w2] eqn:Ec; [|discriminate].
    injection Hrun as <- <- <-.
    exists d0, d1, d2, d3, d4. split; [done|]. split.
    { simpl. by rewrite Ethr. }
    apply correct_fsc_ok_inv in Ec as (_ & _ & _ & pd & s1 & s2 & _ & _ & Hl & Hp & _).
    rewrite !premasked_shape in Hp. fold D in Hp.
    repeat (apply Forall_cons; split; [done|]).
    apply Forall_cons. split; [|done]. split; [done|]. rewrite Hl. by apply S3.
  - injection Hrun as <- <- <-.
    exists d0, d1, d2, d3, d3. split; [done|]. split.
    { simpl. by rewrite Ethr. }
    repeat (apply Forall_cons; split; [done|]). done.
Qed.

Lemma pixres_set_five (d0 d1 d2 d3 d4 : DataFrame) D :
  0 < D →
  Forall (λ d, df_pixres d = pixres_axis D ∧ Z.of_nat (length d) = D / 2)
         [d0; d1; d2; d3; d4] →
  pixres_set [("No Mask", d0); ("Spherical", d1); ("Loose", d2); ("Tight", d3);
              ("Corrected", d4)] = [pixres_axis D].
Proof.
  intros HD Hall.
  apply Forall_cons in Hall as [[P0 _] Hall].
  apply Forall_cons in Hall as [[P1 _] Hall].
  apply Forall_cons in Hall as [[P2 _] Hall].
  apply Forall_cons in Hall as [[P3 _] Hall].
  apply Forall_cons in Hall as [[P4 _] _].
  unfold pixres_set. simpl. rewrite P0, P1, P2, P3, P4.
  repeat (rewrite !(tuple_eq_pixres_axis D HD); simpl). done.
Qed.

(** Once the five curves are there, the orchestrator returns its table when
    no plot is asked for: the assertion on the pixel-resolution axes of line
    301 cannot fail, since all curves are built on the side of the same
    half-map.  The index of the table is [i/D] and its columns are the
    correlations of the five curves, in the order of the labels. *)
Theorem cryosparc_fscs_returns full_vol half_vol1 half_vol2 sphere_mask
    loose_mask tight_mask Apix_ out_file (w w' : world G) masks fv ft :
  cryosparc_masks full_vol sphere_mask loose_mask tight_mask Apix_ w
  = (Ok masks, w) →
  cryosparc_curves half_vol1 half_vol2 masks Apix_ w = (Ok (fv, ft), w') →
  calculate_cryosparc_fscs full_vol half_vol1 half_vol2 sphere_mask loose_mask
    tight_mask Apix_ out_file None w
  = (Ok {| tbl_index := pixres_axis (shape0 (heap w !!! half_vol1));
           tbl_columns := (λ kv, (kv.1, df_fsc kv.2)) <$> fv |}, w') ∧
  fv.*1 = ["No Mask"; "Spherical"; "Loose"; "Tight"; "Corrected"].
Proof.
  intros Hmasks Hcurves.
  unfold calculate_cryosparc_fscs. unfold bind at 1. rewrite Hmasks.
  unfold bind at 1. rewrite Hcurves.
  apply cryosparc_masks_inv in Hmasks as (_ & sphere & loose & tight & -> & _).
  apply cryosparc_curves_ok_inv in Hcurves
    as (Hpos & Heven & d0 & d1 & d2 & d3 & d4 & -> & -> & Hall).
  unfold bind, ret. cbv beta iota.
  rewrite (pixres_set_five _ _ _ _ _ _ Hpos Hall). done.
Qed.

(** A table returned by the orchestrator has the index [i/D], with [D] the
    even, positive side of the first half-map, and exactly the five columns
    [No Mask], [Spherical], [Loose], [Tight], [Corrected], each of length
    [D/2]. *)
Theorem cryosparc_fscs_table full_vol half_vol1 half_vol2 sphere_mask loose_mask
    tight_mask Apix_ out_file plot_file (w w' : world G) tbl :
  calculate_cryosparc_fscs full_vol half_vol1 half_vol2 sphere_mask loose_mask
    tight_mask Apix_ out_file plot_file w = (Ok tbl, w') →
  let D := shape0 (heap w !!! half_vol1) in
  0 < D ∧ D mod 2 = 0 ∧
  tbl_index tbl = pixres_axis D ∧
  (tbl_columns tbl).*1 = ["No Mask"; "Spherical"; "Loose"; "Tight"; "Corrected"] ∧
  Forall (λ col, Z.of_nat (length col.2) = D / 2) (tbl_columns tbl).
Proof.
  intros Hrun D. pose proof Hrun as Hinv.
  apply calculate_cryosparc_fscs_inv in Hinv as (masks & fv & ft & Hm & Hc & Hcols).
  pose proof Hm as Hm'.
  apply cryosparc_masks_inv in Hm' as (_ & sphere & loose & tight & -> & _).
  pose proof Hc as Hc'.
  apply cryosparc_curves_ok_inv in Hc'
    as (Hpos & Heven & d0 & d1 & d2 & d3 & d4 & -> & -> & Hall).
  fold D in Hpos, Heven, Hall.
  split; [done|]. split; [done|].
  assert (tbl_index tbl = pixres_axis D) as Hidx.
  { revert Hrun. unfold calculate_cryosparc_fscs. unfold bind at 1. rewrite Hm.
    unfold bind at 1. rewrite Hc.
    rewrite (pixres_set_five _ _ _ _ _ _ Hpos Hall).
    unfold bind, ret, lift. destruct plot_file; [destruct (fsc_angs _ _)|];
      simpl; intros [= <-]; done. }
  split; [done|]. rewrite Hcols. split; [done|].
  apply Forall_cons in Hall as [[_ L0] Hall].
  apply Forall_cons in Hall as [[_ L1] Hall].
  apply Forall_cons in Hall as [[_ L2] Hall].
  apply Forall_cons in Hall as [[_ L3] Hall].
  apply Forall_cons in Hall as [[_ L4] _].
  unfold df_fsc. simpl.
  repeat (apply Forall_cons; split; [simpl; by rewrite length_fmap|]). done.
Qed.

End Table.

(** ** Errors of the orchestrator *)

Section OrchestratorErrors.
Context {C G : Type} `{!Collaborators C G}.

(** A [tight_mask] that is neither a tuple nor an array is refused before
    anything is computed: no mask is applied and the world stays as it was. *)
Lemma cryosparc_fscs_tight_type_error full_vol half_vol1 half_vol2 sphere_mask
    loose_mask type_name Apix_ out_file plot_file (w : world G) :
  calculate_cryosparc_fscs full_vol half_vol1 half_vol2 sphere_mask loose_mask
    (TightOther type_name) Apix_ out_file plot_file w
  = (Err (TypeError "`tight_mask` must be an array or a tuple giving dilation and cosine edge size in pixels"), w).
Proof. reflexivity. Qed.

(** Asking for a plot changes the outcome in one way only: when one of the
    five 0.143 thresholds is undefined, the labels of the plot divide by
    [None] and the run raises [TypeError] after all curves have been computed
    (in the world they leave); otherwise the run ends as without plot. *)
Theorem cryosparc_fscs_plot full_vol half_vol1 half_vol2 sphere_mask loose_mask
    tight_mask Apix_ out_file plot (w w' : world G) masks fv ft :
  cryosparc_masks full_vol sphere_mask loose_mask tight_mask Apix_ w
  = (Ok masks, w) →
  cryosparc_curves half_vol1 half_vol2 masks Apix_ w = (Ok (fv, ft), w') →
  calculate_cryosparc_fscs full_vol half_vol1 half_vol2 sphere_mask loose_mask
    tight_mask Apix_ out_file (Some plot) w
  = if existsb (λ kv, negb (bool_decide (is_Some kv.2))) ft
    then (Err (TypeError "unsupported operand type(s) for /: 'int' and 'NoneType'"), w')
    else calculate_cryosparc_fscs full_vol half_vol1 half_vol2 sphere_mask
           loose_mask tight_mask Apix_ out_file None w.
Proof.
  intros Hmasks Hcurves.
  rewrite !(cryosparc_fscs_unfold _ _ _ _ _ _ _ _ _ _ _ _ _ _ Hmasks Hcurves).
  destruct (existsb _ ft) eqn:E.
  - by rewrite (fsc_angs_undefined _ _ E).
  - destruct (fsc_angs_defined Apix_ _ E) as [angs Hangs]. by rewrite Hangs.
Qed.

End OrchestratorErrors.

(** ** What a run leaves untouched *)

Section Preserves.
Context {C G : Type} `{!Collaborators C G}.
Implicit Types (l : nat).

Lemma preserves_ret {A} l (a : A) : preserves l (ret (G := G) a).
Proof. by intros w. Qed.

Lemma preserves_raise {A} l e : preserves l (raise (G := G) (A := A) e).
Proof. by intros w. Qed.

Lemma preserves_lift {A} l (r : result A) : preserves l (lift (G := G) r).
Proof. by intros w. Qed.

Lemma preserves_read l l' : preserves l (read (G := G) l').
Proof. by intros w. Qed.

Lemma preserves_bind {A B} l (m : M G A) (k : A → M G B) :
  preserves l m → (∀ a, preserves l (k a)) → preserves l (bind m k).
Proof.
  intros Hm Hk w. unfold bind. specialize (Hm w).
  destruct (m w) as [[a|e] w1]; simpl in *; [|done].
  by rewrite Hk.
Qed.

Lemma preserves_calculate_fsc l vol1 vol2 initial_mask out_file :
  l ≠ vol1 → l ≠ vol2 →
  preserves l (calculate_fsc vol1 vol2 initial_mask out_file).
Proof.
  intros H1 H2 w. rewrite calculate_fsc_world. by apply premasked_lookup_other.
Qed.

Lemma preserves_correct_fsc l fsc_vals vol1 vol2 thr initial_mask :
  l ≠ vol1 → l ≠ vol2 →
  preserves l (correct_fsc fsc_vals vol1 vol2 thr initial_mask).
Proof.
  intros H1 H2 w. rewrite correct_fsc_unfold. cbv zeta.
  rewrite <- (premasked_lookup_other vol1 vol2 initial_mask w l H1 H2).
  destruct (decide _); [done|].
  destruct (get_fftn_dists _) as [dists|e]; [|done].
  destruct (py_int _) as [phase_D|e]; [|done].
  pose proof (phase_randomize_heap dists phase_D
                (voxels (fftn_center (masked vol1 vol2 initial_mask w).1))
                (voxels (fftn_center (masked vol1 vol2 initial_mask w).2))
                (premasked vol1 vol2 initial_mask w)) as Hh.
  destruct (phase_randomize _ _ _ _ _) as [[vols|e] ws]; simpl in *; by rewrite Hh.
Qed.

Lemma preserves_for_items {A B} l (f : A → M G B) (items : list (string * A)) :
  (∀ a, preserves l (f a)) → preserves l (for_items f items).
Proof.
  intros Hf. induction items as [|[lbl a] items IH]; simpl.
  - apply preserves_ret.
  - apply preserves_bind; [apply Hf|]. intros b.
    apply preserves_bind; [apply IH|]. intros r. apply preserves_ret.
Qed.

Lemma preserves_cryosparc_fscs l full_vol half_vol1 half_vol2 sphere_mask
    loose_mask tight_mask Apix_ out_file plot_file :
  l ≠ half_vol1 → l ≠ half_vol2 →
  preserves l (calculate_cryosparc_fscs full_vol half_vol1 half_vol2 sphere_mask
                 loose_mask tight_mask Apix_ out_file plot_file).
Proof.
  intros H1 H2. unfold calculate_cryosparc_fscs.
  apply preserves_bind.
  { unfold cryosparc_masks. apply preserves_bind; [apply preserves_read|].
    intros fv. destruct tight_mask; (apply preserves_ret || apply preserves_raise). }
  intros masks. apply preserves_bind.
  { unfold cryosparc_curves. apply preserves_bind.
    { apply preserves_for_items. intros mask. by apply preserves_calculate_fsc. }
    intros fsc_vals. apply preserves_bind; [apply preserves_lift|]. intros tt.
    apply preserves_bind; [apply preserves_lift|]. intros tv.
    destruct tt as [thr|]; [|apply preserves_ret].
    apply preserves_bind; [apply preserves_lift|]. intros tight.
    apply preserves_bind; [by apply preserves_correct_fsc|]. intros corrected.
    apply preserves_ret. }
  intros [fv ft]. apply preserves_bind.
  { destruct plot_file; [|apply preserves_ret].
    apply preserves_bind; [apply preserves_lift|]. intros _. apply preserves_ret. }
  intros _. destruct (pixres_set fv) as [|idx [|]];
    (apply preserves_ret || apply preserves_raise).
Qed.

(** Whatever its outcome, a run of the orchestrator leaves every tensor other
    than the two half-maps as it was; in particular the full volume, when it
    is a different array, is only read. *)
Theorem cryosparc_fscs_frame l full_vol half_vol1 half_vol2 sphere_mask
    loose_mask tight_mask Apix_ out_file plot_file (w : world G) :
  l ≠ half_vol1 → l ≠ half_vol2 →
  heap (calculate_cryosparc_fscs full_vol half_vol1 half_vol2 sphere_mask
          loose_mask tight_mask Apix_ out_file plot_file w).2 !!! l
  = heap w !!! l.
Proof. intros H1 H2. by apply preserves_cryosparc_fscs. Qed.

End Preserves.

(** ** The pixel size and the outcomes of [main] *)

Lemma float_set_agree a (rest : list float64) :
  forallb (λ b, f_eq b a) rest = true →
  foldl (λ acc x, if existsb (f_eq x) acc then acc else acc ++ [x]) [a] rest = [a].
Proof.
  induction rest as [|b rest IH]; simpl; [done|].
  intros H. apply andb_true_iff in H as [Hb Hrest]. rewrite Hb. simpl. by apply IH.
Qed.

Lemma float_set_grows (rest acc : list float64) :
  (2 <= length acc)%nat →
  (2 <= length (foldl (λ acc x, if existsb (f_eq x) acc then acc else acc ++ [x])
                      acc rest))%nat.
Proof.
  revert acc. induction rest as [|b rest IH]; intros acc Hacc; simpl; [done|].
  apply IH. destruct (existsb _ acc); [done|]. rewrite length_app. lia.
Qed.

Lemma float_set_differ a (rest : list float64) :
  forallb (λ b, f_eq b a) rest = false →
  (2 <= length (foldl (λ acc x, if existsb (f_eq x) acc then acc else acc ++ [x])
                      [a] rest))%nat.
Proof.
  induction rest as [|b rest IH]; simpl; [done|].
  intros H. destruct (f_eq b a) eqn:Hb; simpl in *.
  - by apply IH.
  - apply float_set_grows. simpl. lia.
Qed.

(** Without a usable [--Apix], the pixel size comes from the volumes that
    carry one: it is the first such value when every other one equals it, and
    [main] raises the error about differing pixel sizes as soon as one
    differs. *)
Theorem main_apix_from_volumes args (volumes : list ImageSource) a rest :
  match args_Apix args with
  | Some x => f_truthy x = false
  | None => True
  end →
  omap apix volumes = a :: rest →
  main_apix args volumes
  = if forallb (λ b, f_eq b a) rest then Ok a else Err apix_differ_error.
Proof.
  intros HApix Hvols.
  assert (main_apix args volumes
          = match float_set (a :: rest) with
            | [] => Ok f_one
            | [x] => Ok x
            | _ => Err apix_differ_error
            end) as ->.
  { unfold main_apix. rewrite Hvols.
    destruct (args_Apix args) as [x|]; [by rewrite HApix|done]. }
  unfold float_set. simpl.
  destruct (forallb _ rest) eqn:E.
  - by rewrite float_set_agree.
  - pose proof (float_set_differ a rest E) as Hlen.
    destruct (foldl _ [a] rest) as [|x [|y l]]; simpl in Hlen; (lia || done).
Qed.

Section MainOutcomes.
Context {C G : Type} `{!Collaborators C G}.

(** [main] returns normally only in the three-volume mode without
    [--corrected]: its report is then the table of the orchestrator, called on
    the three loaded tensors with the default loose mask (25, 15), with the
    mask file as tight mask when one is given and (6, 6) otherwise, and with
    the pixel size settled before. *)
Theorem main_returns_table args (w w' : world G) report :
  main args w = (Ok report, w') →
  ∃ path0 path1 path2 apix_ fsc_vals,
    args_volumes args = [path0; path1; path2] ∧
    args_corrected args = None ∧
    main_apix args (ImageSource_from_file <$> args_volumes args) = Ok apix_ ∧
    report = ReportTable fsc_vals ∧
    calculate_cryosparc_fscs
      (images (ImageSource_from_file path0))
      (images (ImageSource_from_file path1))
      (images (ImageSource_from_file path2))
      None (25, 15)
      match args_mask args with
      | None => TightTuple 6 6
      | Some m => TightArray (parse_mrc m)
      end
      apix_ (args_outtxt args) (main_plot_file args) w = (Ok fsc_vals, w').
Proof.
  unfold main.
  destruct (args_volumes args) as [|p0 [|p1 [|p2 [|p3 rest]]]] eqn:Ev;
    simpl; try discriminate.
  - (* two volumes: the call of [calculate_fsc] cannot be bound *)
    unfold bind at 1. unfold lift at 1.
    destruct (main_apix _ _) as [a|e]; [|discriminate].
    unfold main_two. unfold bind at 1. unfold lift at 1.
    destruct (main_corrected _ a) as [c|e]; [|discriminate].
    simpl. discriminate.
  - (* three volumes *)
    unfold bind at 1. unfold lift at 1.
    destruct (main_apix _ _) as [a|e] eqn:Ea; [|discriminate].
    unfold main_three.
    destruct (args_corrected args) as [c|] eqn:Ec; [discriminate|].
    destruct (args_mask args) as [m|]; cbv [bind lift ret]; simpl;
      destruct (calculate_cryosparc_fscs _ _ _ _ _ _ _ _ _ w) as [[tbl|e] w1] eqn:Er;
      simpl; try discriminate;
      intros [= <- <-]; exists p0, p1, p2, a, tbl; done.
Qed.

Lemma preserves_bind_lift {A B} l (r : result A) (k : A → M G B) :
  (∀ a, r = Ok a → preserves l (k a)) → preserves l (bind (lift r) k).
Proof.
  intros Hk w. unfold bind, lift. destruct r as [a|e]; simpl; [|done].
  by apply Hk.
Qed.

(** Whatever its outcome, a run of [main] leaves every tensor other than
    those of the second and third volume file as it was: the full volume of
    the three-volume mode is only read. *)
Theorem main_frame args (w : world G) l :
  (∀ path, args_volumes args !! 1%nat = Some path →
           l ≠ images (ImageSource_from_file path)) →
  (∀ path, args_volumes args !! 2%nat = Some path →
           l ≠ images (ImageSource_from_file path)) →
  heap (main args w).2 !!! l = heap w !!! l.
Proof.
  intros H1 H2. revert w. change (preserves l (main args)). unfold main.
  destruct (args_volumes args) as [|p0 [|p1 [|p2 [|p3 rest]]]];
    simpl; try apply preserves_raise.
  - (* two volumes: the call of [calculate_fsc] raises before any write *)
    apply preserves_bind; [apply preserves_lift|]. intros a. unfold main_two.
    apply preserves_bind; [apply preserves_lift|]. intros c.
    apply preserves_bind; [apply preserves_lift|]. intros v0.
    apply preserves_bind; [apply preserves_lift|]. intros v1.
    apply preserves_bind; [|intros; apply preserves_ret].
    intros w1. by rewrite call_two_volumes_raises.
  - (* three volumes: the half-maps are the tensors of the second and third
       file *)
    apply preserves_bind; [apply preserves_lift|]. intros a. unfold main_three.
    destruct (args_corrected args); [apply preserves_raise|].
    apply preserves_bind_lift. intros v0 [= <-].
    apply preserves_bind_lift. intros v1 [= <-].
    apply preserves_bind_lift. intros v2 [= <-].
    apply preserves_bind; [|intros; apply preserves_ret].
    apply preserves_cryosparc_fscs; [by apply H1|by apply H2].
Qed.

End MainOutcomes.

(** * The properties on the toy setting *)

Lemma calculate_fsc_threshold_shell_witness :
  ∃ k y,
    1 <= k < shape0 (heap toy_world !!! 1%nat) / 2 ∧
    Fin (1 # 4) = f_div (f_of_Z k) (f_of_Z (shape0 (heap toy_world !!! 1%nat))) ∧
    df_fsc toy_fsc.1 !! Z.to_nat k = Some y ∧ f_ge y cutoff_143 = true ∧
    ∀ j z, k < j → df_fsc toy_fsc.1 !! Z.to_nat j = Some z →
           f_ge z cutoff_143 = false.
Proof.
  apply (calculate_fsc_threshold_shell (Collaborators0 := toy) 1%nat 2%nat None
           None toy_world toy_fsc.2 toy_fsc.1 cutoff_143 (Fin (1 # 4)));
    vm_compute; reflexivity.
Defined.

Lemma correct_fsc_axis_witness :
  length [(Fin (0 # 4), f_one); (Fin (1 # 4), f_zero)] = length toy_curve ∧
  df_pixres [(Fin (0 # 4), f_one); (Fin (1 # 4), f_zero)]
  = pixres_axis (shape0 (heap toy_world !!! 1%nat)).
Proof.
  apply (correct_fsc_axis (Collaborators0 := toy) toy_curve 1%nat 2%nat f_zero
           None toy_world toy_world).
  vm_compute; reflexivity.
Defined.

Lemma correct_fsc_beyond_last_shell_witness :
  df_fsc [(Fin (0 # 4), f_one); (Fin (1 # 4), Fin (1 # 2))] = df_fsc toy_curve.
Proof.
  apply (correct_fsc_beyond_last_shell (Collaborators0 := toy) toy_curve 1%nat
           2%nat f_one None toy_world toy_world
           [(Fin (0 # 4), f_one); (Fin (1 # 4), Fin (1 # 2))] 4).
  - vm_compute; reflexivity.
  - vm_compute; reflexivity.
  - vm_compute; discriminate.
Defined.

Lemma correct_fsc_range_witness :
  f_zero = Fin (1 # 2) ∨ ∃ q, f_zero = Fin q ∧ (0 <= q <= 1)%Q.
Proof.
  apply (correct_fsc_range (Collaborators0 := toy) toy_curve 1%nat 2%nat f_zero
           None toy_world toy_world [(Fin (0 # 4), f_one); (Fin (1 # 4), f_zero)]
           0 1 (1 # 2)%Q f_zero);
    try lia; vm_compute; reflexivity.
Defined.

Lemma phase_randomize_keeps_witness :
  ∃ s1 s2 ws,
    phase_randomize toy_dists 1 (replicate 64 1%Q) (replicate 64 2%Q) toy_world
    = (Ok (s1, s2), ws) ∧
    heap ws = heap toy_world ∧
    s1 ≡ₚ replicate 64 1%Q ∧ s2 ≡ₚ replicate 64 2%Q ∧
    ∀ k d, toy_dists !! k = Some d → dist_gt d 1 = false →
      s1 !! k = replicate 64 1%Q !! k ∧ s2 !! k = replicate 64 2%Q !! k.
Proof.
  apply (phase_randomize_keeps (Collaborators0 := toy) (CollaboratorsOk0 := toy_ok)
           toy_dists 1 (replicate 64 1%Q) (replicate 64 2%Q) toy_world);
    vm_compute; lia.
Defined.

Lemma cryosparc_fscs_returns_witness :
  calculate_cryosparc_fscs 0%nat 1%nat 2%nat None (25, 15) (TightTuple 6 6) f_one
    None None toy_world
  = (Ok {| tbl_index := pixres_axis (shape0 (heap toy_world !!! 1%nat));
           tbl_columns := (λ kv, (kv.1, df_fsc kv.2)) <$> toy_curves.1.1 |},
     toy_curves.2) ∧
  toy_curves.1.1.*1 = ["No Mask"; "Spherical"; "Loose"; "Tight"; "Corrected"].
Proof.
  apply (cryosparc_fscs_returns (Collaborators0 := toy) 0%nat 1%nat 2%nat None
           (25, 15) (TightTuple 6 6) f_one None toy_world toy_curves.2 toy_masks
           toy_curves.1.1 toy_curves.1.2);
    vm_compute; reflexivity.
Defined.

Lemma cryosparc_fscs_table_witness :
  0 < shape0 (heap toy_world !!! 1%nat) ∧
  shape0 (heap toy_world !!! 1%nat) mod 2 = 0 ∧
  tbl_index (match toy_main.1 with
             | ReportTable tbl => tbl
             | ReportCurve _ _ => {| tbl_index := []; tbl_columns := [] |}
             end)
  = pixres_axis (shape0 (heap toy_world !!! 1%nat)).
Proof.
  pose proof (cryosparc_fscs_table (Collaborators0 := toy) 0%nat 1%nat 2%nat None
                (25, 15) (TightTuple 6 6) f_one None None toy_world toy_main.2
                (match toy_main.1 with
                 | ReportTable tbl => tbl
                 | ReportCurve _ _ => {| tbl_index := []; tbl_columns := [] |}
                 end)) as H.
  destruct H as (H1 & H2 & H3 & _); [vm_compute; reflexivity|].
  exact (conj H1 (conj H2 H3)).
Defined.

Lemma cryosparc_fscs_plot_witness :
  calculate_cryosparc_fscs 0%nat 1%nat 2%nat None (25, 15) (TightTuple 6 6) f_one
    None (Some "fsc-plot.png") toy_world
  = if existsb (λ kv, negb (bool_decide (is_Some kv.2))) toy_curves.1.2
    then (Err (TypeError "unsupported operand type(s) for /: 'int' and 'NoneType'"),
          toy_curves.2)
    else calculate_cryosparc_fscs 0%nat 1%nat 2%nat None (25, 15) (TightTuple 6 6)
           f_one None None toy_world.
Proof.
  apply (cryosparc_fscs_plot (Collaborators0 := toy) 0%nat 1%nat 2%nat None
           (25, 15) (TightTuple 6 6) f_one None "fsc-plot.png" toy_world
           toy_curves.2 toy_masks toy_curves.1.1 toy_curves.1.2);
    vm_compute; reflexivity.
Defined.

Lemma cryosparc_fscs_frame_witness :
  heap (calculate_cryosparc_fscs 0%nat 1%nat 2%nat None (25, 15) (TightTuple 6 6)
          f_one None None toy_world).2 !!! 0%nat
  = heap toy_world !!! 0%nat.
Proof.
  apply (cryosparc_fscs_frame (Collaborators0 := toy) 0%nat 0%nat 1%nat 2%nat None
           (25, 15) (TightTuple 6 6) f_one None None toy_world); lia.
Defined.

Lemma main_apix_from_volumes_witness :
  main_apix toy_args_plain (toy_source <$> args_volumes toy_args_plain)
  = if forallb (λ b, f_eq b (Fin 1)) [Fin 1] then Ok (Fin 1)
    else Err apix_differ_error.
Proof.
  apply (main_apix_from_volumes toy_args_plain
           (toy_source <$> args_volumes toy_args_plain) (Fin 1) [Fin 1]).
  - exact I.
  - reflexivity.
Defined.

Lemma main_returns_table_witness :
  ∃ path0 path1 path2 apix_ fsc_vals,
    args_volumes toy_args_plain = [path0; path1; path2] ∧
    args_corrected toy_args_plain = None ∧
    main_apix toy_args_plain (ImageSource_from_file <$> args_volumes toy_args_plain)
    = Ok apix_ ∧
    toy_main.1 = ReportTable fsc_vals ∧
    calculate_cryosparc_fscs
      (images (ImageSource_from_file path0))
      (images (ImageSource_from_file path1))
      (images (ImageSource_from_file path2))
      None (25, 15)
      match args_mask toy_args_plain with
      | None => TightTuple 6 6
      | Some m => TightArray (parse_mrc m)
      end
      apix_ (args_outtxt toy_args_plain) (main_plot_file toy_args_plain) toy_world
    = (Ok fsc_vals, toy_main.2).
Proof.
  apply (main_returns_table (Collaborators0 := toy) toy_args_plain toy_world
           toy_main.2 toy_main.1).
  vm_compute; reflexivity.
Defined.

Lemma main_frame_witness :
  heap (main toy_args_plain toy_world).2 !!! 0%nat = heap toy_world !!! 0%nat.
Proof.
  apply (main_frame (Collaborators0 := toy) toy_args_plain toy_world 0%nat).
  - intros path [= <-]. vm_compute. lia.
  - intros path [= <-]. vm_compute. lia.
Defined.

Lemma calculate_fsc_outcomes_witness :
  calculate_fsc 1%nat 2%nat (Some (TorchMask (toy_volume (1 # 2)))) None toy_world
  = (if 4 <=? 0 then Err IndexError
     else if 4 mod 2 =? 0 then
       Ok (zip (pixres_axis 4)
               (f_one ::
                shell_values 4
                  (voxels (fftn_center
                     (masked 1%nat 2%nat (Some (TorchMask (toy_volume (1 # 2))))
                        toy_world).1))
                  (voxels (fftn_center
                     (masked 1%nat 2%nat (Some (TorchMask (toy_volume (1 # 2))))
                        toy_world).2))))
     else Err AssertionError,
     World (<[2%nat := tensor_mul
                         (<[1%nat := tensor_mul (heap toy_world !!! 1%nat)
                                       (toy_volume (1 # 2))]> (heap toy_world)
                            !!! 2%nat) (toy_volume (1 # 2))]>
              (<[1%nat := tensor_mul (heap toy_world !!! 1%nat)
                            (toy_volume (1 # 2))]> (heap toy_world)))
           (rng toy_world)).
Proof.
  apply (calculate_fsc_outcomes (Collaborators0 := toy) 1%nat 2%nat
           (Some (TorchMask (toy_volume (1 # 2)))) None toy_world 4);
    split; reflexivity.
Defined.

Lemma calculate_fsc_same_volume_witness :
  heap (calculate_fsc 1%nat 1%nat (Some (TorchMask (toy_volume (1 # 2)))) None
          toy_world).2 !!! 1%nat
  = tensor_mul (tensor_mul (heap toy_world !!! 1%nat) (toy_volume (1 # 2)))
      (toy_volume (1 # 2)).
Proof.
  apply (calculate_fsc_same_volume (Collaborators0 := toy) 1%nat
           (TorchMask (toy_volume (1 # 2))) None toy_world 4);
    split; reflexivity.
Defined.

Lemma correct_fsc_footprint_witness :
  heap (correct_fsc toy_curve 1%nat 2%nat f_zero
          (Some (ArrayMask (toy_volume (1 # 2)))) toy_world).2
  = heap toy_world.
Proof.
  apply (correct_fsc_footprint (Collaborators0 := toy) toy_curve 1%nat 2%nat
           f_zero (Some (ArrayMask (toy_volume (1 # 2)))) toy_world 4);
    split; reflexivity.
Defined.
